(** * InteractiveAvatar: chunked speech playback

    A shallow embedding of [src/components/InteractiveAvatar.tsx]:
    the word chunker [splitIntoChunks], the playback sequencer
    ([speakRemainingChunks], [startSpeaking], [handleInterrupt],
    [resumeSpeaking], the input's [onChange]) and the session start
    [startSessionV2].

    JavaScript strings are sequences of UTF-16 code units; they are modelled
    as lists of code units ([N]).  The React component is modelled as a state
    machine: one state record holds the values of the [useState] cells and of
    the [useRef] cell, every event handler is a function on that record, and
    every running [speakRemainingChunks] call is a suspended loop that keeps
    the values its closure captured when it was created. *)

From Stdlib Require Import NArith String Ascii.
From stdpp Require Import base option list.

Local Open Scope N_scope.
Local Open Scope nat_scope.

(** ** JavaScript strings *)

Definition code_unit := N.
Definition jsstring := list code_unit.

(** An ASCII literal as a JavaScript string. *)
Definition js (s : string) : jsstring :=
  map N_of_ascii (list_ascii_of_string s).

Module Chunker.

(** The code units matched by the regular expression class [\s]
    (ECMAScript WhiteSpace and LineTerminator; all lie in the BMP, so each is
    one code unit). *)
Definition white_space : list code_unit :=
  [ 9; 10; 11; 12; 13; 32; 160; 5760;
    8192; 8193; 8194; 8195; 8196; 8197; 8198; 8199; 8200; 8201; 8202;
    8232; 8233; 8239; 8287; 12288; 65279 ]%N.

Definition is_space (c : code_unit) : bool :=
  existsb (N.eqb c) white_space.

(** [text.split(/\s+/)].  The separator [\s+] is greedy and never matches the
    empty string, so the built-in cuts the string at every maximal run of
    white space, pushes the piece before each run (also when that piece is
    empty) and finally pushes the piece after the last run.  [in_sep] tells
    that the scanner is inside a run whose piece was already pushed. *)
Fixpoint split_scan (in_sep : bool) (piece s : jsstring) : list jsstring :=
  match s with
  | [] => [piece]
  | c :: rest =>
      if is_space c then
        if in_sep then split_scan true [] rest
        else piece :: split_scan true [] rest
      else split_scan false (piece ++ [c]) rest
  end.

Definition split_ws (text : jsstring) : list jsstring :=
  split_scan false [] text.

(** [words.slice(start, end)] for indices that are not negative. *)
Definition slice {A} (l : list A) (start stop : nat) : list A :=
  take (stop - start) (drop start l).

(** [parts.join(sep)]. *)
Fixpoint join (sep : jsstring) (parts : list jsstring) : jsstring :=
  match parts with
  | [] => []
  | [p] => p
  | p :: rest => p ++ sep ++ join sep rest
  end.

Definition space : jsstring := [32%N].

(** The [for] loop of [splitIntoChunks]: [i] is the loop variable, [chunks]
    the array being filled.  [fuel] bounds the number of iterations. *)
Fixpoint chunk_loop (fuel : nat) (words : list jsstring) (i : nat)
    (chunks : list jsstring) : list jsstring :=
  match fuel with
  | 0 => chunks
  | S fuel' =>
      if i <? length words then
        chunk_loop fuel' words (i + 8)
          (chunks ++ [join space (slice words i (i + 8))])
      else chunks
  end.

Definition splitIntoChunks (text : jsstring) : list jsstring :=
  let words := split_ws text in
  chunk_loop (length words) words 0 [].

(** *** What the specification describes *)

(** The tokens of a text: the pieces between white space runs, without the
    empty ones. *)
Definition nonempty (w : jsstring) : bool :=
  match w with [] => false | _ => true end.

Definition tokens (text : jsstring) : list jsstring :=
  filter (fun w => nonempty w = true) (split_ws text).

(** The white-space-normalised text: its tokens joined by single spaces. *)
Definition normalized (text : jsstring) : jsstring :=
  join space (tokens text).

(** Consecutive batches of eight: every batch but the last is full. *)
Fixpoint batches {A} (fuel : nat) (l : list A) : list (list A) :=
  match fuel, l with
  | S fuel', _ :: _ => take 8 l :: batches fuel' (drop 8 l)
  | _, _ => []
  end.

(** The chunker as the specification words it: the tokens, in batches of at
    most eight, each batch joined by single spaces. *)
Definition chunker_spec (text : jsstring) : list jsstring :=
  let ts := tokens text in
  map (join space) (batches (length ts) ts).

(** Texts that begin or end with white space. *)
Fixpoint ends_with_space (s : jsstring) : bool :=
  match s with
  | [] => false
  | [c] => is_space c
  | _ :: rest => ends_with_space rest
  end.

Definition starts_with_space (s : jsstring) : bool :=
  match s with
  | [] => false
  | c :: _ => is_space c
  end.

Definition has_edge_space (s : jsstring) : bool :=
  starts_with_space s || ends_with_space s.

(** Code units that are no white space other than U+0020, the separator
    of [join]. *)
Definition plain_space (c : code_unit) : Prop :=
  is_space c = true -> c = 32%N.

End Chunker.

(** ** The playback sequencer

    React runs the component function anew for every render.  The values
    returned by [useState] are constants of that render; a closure made in a
    render keeps them for as long as it lives, also across an [await].  The
    [useRef] cell is one object shared by all renders.  [useMemoizedFn] gives
    a stable function that, when called, runs the handler of the latest
    render.  The component is rendered again before the next event is
    handled, so a handler that starts to run sees the current state; an
    [async] call that is already under way goes on with what it captured. *)

Module Playback.
Import Chunker.

(** Calls the component makes to its collaborators and to the host, in the
    order in which they are issued. *)
Inductive call :=
| RepeatMessage (chunk : option jsstring)  (* repeatMessage(chunk); [None] is [undefined] *)
| SetTimeout (ms : N)                      (* setTimeout(res, ms) *)
| Interrupt                                (* interrupt() *)
| SendMessage (msg : jsstring).            (* sendMessage(msg) *)

(** The values a [speakRemainingChunks] closure reads from the render that
    created it.  They are [const] bindings: a later [setState] makes a new
    render with new bindings and leaves these as they are. *)
Record closure := Closure {
  c_chunks : list jsstring;
  c_isInterrupted : bool;
  c_resumeRequested : bool
}.

(** Where a [speakRemainingChunks] call stands. *)
Inductive suspension :=
| AwaitRepeat   (* at [await repeatMessage(chunk)] *)
| AwaitDelay    (* at [await new Promise(res => setTimeout(res, 1000))] *)
| Returned      (* left the [while] and returned *)
| Failed.       (* [repeatMessage] rejected; the rejection is not caught *)

Record loop := Loop { l_env : closure; l_at : suspension }.

(** The component: the [useState] cells, the [useRef] cell
    [chunkIndexRef.current], every [speakRemainingChunks] call made so far
    and the calls issued so far. *)
Record state := State {
  userContent : jsstring;
  chunks : list jsstring;
  chunkIndexRef : nat;
  isSpeaking : bool;
  isInterrupted : bool;
  resumeRequested : bool;
  loops : list loop;
  calls : list call
}.

Definition initial : state :=
  State [] [] 0 false false false [] [].

Definition setUserContent (v : jsstring) (st : state) : state :=
  State v (chunks st) (chunkIndexRef st) (isSpeaking st) (isInterrupted st)
    (resumeRequested st) (loops st) (calls st).
Definition setChunks (v : list jsstring) (st : state) : state :=
  State (userContent st) v (chunkIndexRef st) (isSpeaking st)
    (isInterrupted st) (resumeRequested st) (loops st) (calls st).
Definition set_chunkIndexRef (v : nat) (st : state) : state :=
  State (userContent st) (chunks st) v (isSpeaking st) (isInterrupted st)
    (resumeRequested st) (loops st) (calls st).
Definition setIsSpeaking (v : bool) (st : state) : state :=
  State (userContent st) (chunks st) (chunkIndexRef st) v (isInterrupted st)
    (resumeRequested st) (loops st) (calls st).
Definition setIsInterrupted (v : bool) (st : state) : state :=
  State (userContent st) (chunks st) (chunkIndexRef st) (isSpeaking st) v
    (resumeRequested st) (loops st) (calls st).
Definition setResumeRequested (v : bool) (st : state) : state :=
  State (userContent st) (chunks st) (chunkIndexRef st) (isSpeaking st)
    (isInterrupted st) v (loops st) (calls st).
Definition set_loops (v : list loop) (st : state) : state :=
  State (userContent st) (chunks st) (chunkIndexRef st) (isSpeaking st)
    (isInterrupted st) (resumeRequested st) v (calls st).
Definition issue (c : call) (st : state) : state :=
  State (userContent st) (chunks st) (chunkIndexRef st) (isSpeaking st)
    (isInterrupted st) (resumeRequested st) (loops st) (calls st ++ [c]).

Arguments setUserContent v st /.
Arguments setChunks v st /.
Arguments set_chunkIndexRef v st /.
Arguments setIsSpeaking v st /.
Arguments setIsInterrupted v st /.
Arguments setResumeRequested v st /.
Arguments set_loops v st /.
Arguments issue c st /.

(** The bindings of the current render, as a closure created in it sees
    them. *)
Definition capture (st : state) : closure :=
  Closure (chunks st) (isInterrupted st) (resumeRequested st).

(** [speakRemainingChunks] from the [while] test to the next [await] or to
    the return.  [chunkIndexRef.current] is read from the shared ref;
    [chunks], [isInterrupted] and [resumeRequested] are the captured ones. *)
Definition loop_iter (env : closure) (st : state) : state * suspension :=
  if chunkIndexRef st <? length (c_chunks env) then
    if c_isInterrupted env && negb (c_resumeRequested env) then
      (setResumeRequested false st, Returned)
    else
      let chunk := c_chunks env !! chunkIndexRef st in
      (issue (RepeatMessage chunk) (setIsSpeaking true st), AwaitRepeat)
  else (setResumeRequested false st, Returned).

(** The rest of the loop body, run when [repeatMessage] has resolved:
    [setIsSpeaking(false); chunkIndexRef.current++; update();] and the
    [setTimeout].  [update()] only asks for a render. *)
Definition loop_after_repeat (st : state) : state :=
  let st := setIsSpeaking false st in
  let st := set_chunkIndexRef (S (chunkIndexRef st)) st in
  issue (SetTimeout 1000%N) st.

Arguments loop_after_repeat st /.

(** A call [speakRemainingChunks()] made by a handler of the render [env]:
    it runs to its first [await] (or returns) before the handler goes on. *)
Definition speakRemainingChunks (env : closure) (st : state) : state :=
  let '(st', s) := loop_iter env st in
  set_loops (loops st' ++ [Loop env s]) st'.

(** The handlers read the bindings of the render they belong to;
    [useMemoizedFn] always calls the handler of the latest render. *)
Definition startSpeaking (st : state) : state :=
  if (length (chunks st) =? 0) || isSpeaking st then st
  else
    let env := capture st in
    let st := setIsInterrupted false st in
    let st := setResumeRequested false st in
    let st := set_chunkIndexRef 0 st in
    speakRemainingChunks env st.

Definition handleInterrupt (userInput : jsstring) (st : state) : state :=
  if negb (isSpeaking st) then st
  else
    let st := setIsInterrupted true st in
    let st := setResumeRequested false st in
    let st := issue Interrupt st in
    issue (SendMessage userInput) st.

Definition resumeSpeaking (st : state) : state :=
  if negb (isInterrupted st) || isSpeaking st
     || (length (chunks st) <=? chunkIndexRef st)
  then st
  else
    let env := capture st in
    let st := setResumeRequested true st in
    let st := setIsInterrupted false st in
    speakRemainingChunks env st.

Definition onChange (input : jsstring) (st : state) : state :=
  let st := setUserContent input st in
  let sentenceChunks := splitIntoChunks input in
  let st := setChunks sentenceChunks st in
  let st := set_chunkIndexRef 0 st in
  let st := setIsInterrupted false st in
  setResumeRequested false st.

(** Resumption of the [k]-th loop after one of its [await]s. *)
Definition set_loop (k : nat) (l : loop) (st : state) : state :=
  set_loops (<[k := l]> (loops st)) st.

Arguments set_loop k l st /.

Definition repeat_resolved (k : nat) (st : state) : state :=
  match loops st !! k with
  | Some (Loop env AwaitRepeat) =>
      set_loop k (Loop env AwaitDelay) (loop_after_repeat st)
  | _ => st
  end.

Definition repeat_rejected (k : nat) (st : state) : state :=
  match loops st !! k with
  | Some (Loop env AwaitRepeat) => set_loop k (Loop env Failed) st
  | _ => st
  end.

Definition timer_fired (k : nat) (st : state) : state :=
  match loops st !! k with
  | Some (Loop env AwaitDelay) =>
      let '(st', s) := loop_iter env st in
      set_loop k (Loop env s) st'
  | _ => st
  end.

(** What can happen to the component.  A click reaches its handler only
    when the button is not [disabled]. *)
Inductive event :=
| Change (input : jsstring)
| ClickSpeak
| ClickInterrupt
| ClickResume
| RepeatResolved (k : nat)
| RepeatRejected (k : nat)
| TimerFired (k : nat)
| AvatarStartTalking    (* StreamingEvents.AVATAR_START_TALKING *)
| AvatarStopTalking.    (* StreamingEvents.AVATAR_STOP_TALKING *)

Definition speak_disabled (st : state) : bool :=
  negb (nonempty (userContent st)) || isSpeaking st.
Definition interrupt_disabled (st : state) : bool :=
  negb (isSpeaking st).
Definition resume_disabled (st : state) : bool :=
  negb (isInterrupted st) || isSpeaking st.

Definition step (e : event) (st : state) : state :=
  match e with
  | Change input => onChange input st
  | ClickSpeak => if speak_disabled st then st else startSpeaking st
  | ClickInterrupt =>
      if interrupt_disabled st then st
      else handleInterrupt (js "User interruption!") st
  | ClickResume => if resume_disabled st then st else resumeSpeaking st
  | RepeatResolved k => repeat_resolved k st
  | RepeatRejected k => repeat_rejected k st
  | TimerFired k => timer_fired k st
  | AvatarStartTalking => setIsSpeaking true st
  | AvatarStopTalking => setIsSpeaking false st
  end.

Fixpoint run (evs : list event) (st : state) : state :=
  match evs with
  | [] => st
  | e :: evs' => run evs' (step e st)
  end.

(** The events that start over: new text, or a fresh playback. *)
Definition restarts (e : event) : bool :=
  match e with
  | Change _ | ClickSpeak => true
  | _ => false
  end.

(** The resolutions that let the [k]-th loop speak [n] chunks to the end:
    each [repeatMessage] resolves, then the timer fires. *)
Fixpoint playback_events (k n : nat) : list event :=
  match n with
  | 0 => []
  | S n' => RepeatResolved k :: TimerFired k :: playback_events k n'
  end.

(** The calls of a loop that speaks the chunks [cs] one after the other. *)
Definition speak_calls (cs : list jsstring) : list call :=
  flat_map (fun c => [RepeatMessage (Some c); SetTimeout 1000%N]) cs.

(** The events by which a loop goes on after an [await]. *)
Definition loop_event (e : event) : bool :=
  match e with
  | RepeatResolved _ | RepeatRejected _ | TimerFired _ => true
  | _ => false
  end.

(** The chunks handed to [repeatMessage], in call order. *)
Definition spoken (cs : list call) : list (option jsstring) :=
  omap (fun c => match c with RepeatMessage ch => Some ch | _ => None end) cs.

(** The loops that have not finished. *)
Definition pending (l : loop) : bool :=
  match l_at l with AwaitRepeat | AwaitDelay => true | _ => false end.

(** The chunk list is the chunking of the text in the input, or both are
    still empty. *)
Definition chunks_of_text (st : state) : Prop :=
  (userContent st = [] /\ chunks st = []) \/
  chunks st = splitIntoChunks (userContent st).

End Playback.

(** ** Starting a session *)

Module Session.
Import Chunker.

(** How an awaited promise or a call that may throw ends.  The thrown value
    is kept as its message. *)
Inductive outcome (A : Type) :=
| Fulfilled (a : A)
| Rejected (reason : jsstring).
Arguments Fulfilled {A} a.
Arguments Rejected {A} reason.

(** What the collaborators answer during one [startSessionV2] call. *)
Record world := World {
  fetch_result : outcome unit;           (* fetch(...) *)
  text_result : outcome jsstring;        (* response.text() *)
  initAvatar_result : outcome unit;      (* initAvatar(token) *)
  startAvatar_result : outcome unit;     (* startAvatar(DEFAULT_CONFIG) *)
  startVoiceChat_result : outcome unit   (* startVoiceChat() *)
}.

Inductive streaming_event := AVATAR_START_TALKING | AVATAR_STOP_TALKING.
Inductive config := DEFAULT_CONFIG.

Inductive call :=
| Fetch (url method : jsstring)
| ResponseText
| InitAvatar (token : jsstring)
| On (ev : streaming_event)
| StartAvatar (cfg : config)
| StartVoiceChat
| ConsoleError (msg reason : jsstring).

(** Computations that log their calls and may throw. *)
Definition M (A : Type) : Type := list call -> outcome A * list call.

Definition ret {A} (a : A) : M A := fun log => (Fulfilled a, log).
Definition throw {A} (reason : jsstring) : M A :=
  fun log => (Rejected reason, log).
Definition bind {A B} (m : M A) (k : A -> M B) : M B :=
  fun log =>
    match m log with
    | (Fulfilled a, log') => k a log'
    | (Rejected r, log') => (Rejected r, log')
    end.
Definition invoke {A} (c : call) (answer : outcome A) : M A :=
  fun log => (answer, log ++ [c]).
Definition try_catch {A} (m : M A) (handler : jsstring -> M A) : M A :=
  fun log =>
    match m log with
    | (Rejected r, log') => handler r log'
    | done => done
    end.

Notation "'let!' x ':=' m 'in' k" := (bind m (fun x => k))
  (at level 10, x name, m at level 100, k at level 200).
Notation "'do!' m 'in' k" := (bind m (fun _ => k))
  (at level 10, m at level 100, k at level 200).

Definition token_url : jsstring := js "/api/get-access-token".
Definition error_prefix : jsstring := js "Error starting avatar session:".

Definition startSessionV2 (isVoiceChat : bool) (w : world) : M unit :=
  try_catch
    (do! invoke (Fetch token_url (js "POST")) (fetch_result w) in
     let! token := invoke ResponseText (text_result w) in
     do! (if negb (nonempty token) then throw (js "No access token")
          else ret tt) in
     do! invoke (InitAvatar token) (initAvatar_result w) in
     do! invoke (On AVATAR_START_TALKING) (Fulfilled tt) in
     do! invoke (On AVATAR_STOP_TALKING) (Fulfilled tt) in
     do! invoke (StartAvatar DEFAULT_CONFIG) (startAvatar_result w) in
     if isVoiceChat then invoke StartVoiceChat (startVoiceChat_result w)
     else ret tt)
    (fun error =>
       invoke (ConsoleError error_prefix error) (Fulfilled tt)).

(** The calls of one [startSessionV2], in order. *)
Definition session_calls (isVoiceChat : bool) (w : world) : list call :=
  snd (startSessionV2 isVoiceChat w []).

Definition is_fetch (c : call) : bool :=
  match c with Fetch _ _ => true | _ => false end.
Definition is_init (c : call) : bool :=
  match c with InitAvatar _ => true | _ => false end.
Definition is_start (c : call) : bool :=
  match c with StartAvatar _ | StartVoiceChat => true | _ => false end.
Definition is_error_log (c : call) : bool :=
  match c with ConsoleError _ _ => true | _ => false end.

Definition is_voice (c : call) : bool :=
  match c with StartVoiceChat => true | _ => false end.

(** The calls of a session start in which nothing fails. *)
Definition full_start (isVoiceChat : bool) (token : jsstring) : list call :=
  [Fetch token_url (js "POST"); ResponseText; InitAvatar token;
   On AVATAR_START_TALKING; On AVATAR_STOP_TALKING;
   StartAvatar DEFAULT_CONFIG]
  ++ (if isVoiceChat then [StartVoiceChat] else []).

End Session.

(** * Properties *)

Module ChunkerFacts.
Import Chunker.

(** ** The pieces of [split] *)

(** What [split] on [\s+] returns for texts with white space at the edges,
    in runs, of several kinds, or with none at all. *)
Example split_ws_examples :
  split_ws [] = [[]] /\
  split_ws (js " ") = [[]; []] /\
  split_ws (js "a  b") = [js "a"; js "b"] /\
  split_ws (js " a b ") = [[]; js "a"; js "b"; []] /\
  split_ws [97; 9; 10; 160; 98]%N = [js "a"; js "b"] /\
  split_ws (js "a,b") = [js "a,b"].
Proof. repeat split; reflexivity. Qed.

Lemma split_scan_length (s : jsstring) :
  forall in_sep piece, 1 <= length (split_scan in_sep piece s).
Proof.
  induction s as [|c rest IH]; intros in_sep piece; simpl; [lia|].
  destruct (is_space c); [destruct in_sep|]; simpl; auto.
Qed.

Lemma split_ws_not_nil (text : jsstring) : split_ws text <> [].
Proof.
  unfold split_ws. pose proof (split_scan_length text false []) as H.
  destruct (split_scan false [] text); simpl in H; [lia | discriminate].
Qed.

(** A text that does not end with white space leaves no empty piece behind,
    as long as the piece under construction is not empty when a run of white
    space (or the end) closes it. *)
Lemma split_scan_nonempty (s : jsstring) :
  ends_with_space s = false ->
  (forall piece, piece <> [] ->
     Forall (fun w => nonempty w = true) (split_scan false piece s)) /\
  (s <> [] ->
     Forall (fun w => nonempty w = true) (split_scan true [] s)).
Proof.
  induction s as [|c rest IH]; intros Hend.
  - split; [|congruence]. intros piece Hp. simpl.
    constructor; [|constructor]. by destruct piece.
  - assert (Hrest : ends_with_space rest = false)
      by (destruct rest; [reflexivity | exact Hend]).
    destruct (IH Hrest) as [IHf IHt].
    assert (Hsp : is_space c = true -> rest <> []).
    { intros Hc ->. simpl in Hend. congruence. }
    split.
    + intros piece Hp. simpl. destruct (is_space c) eqn:Hc.
      * constructor; [by destruct piece | auto].
      * apply IHf. by destruct piece.
    + intros _. simpl. destruct (is_space c) eqn:Hc; [auto|].
      by apply IHf.
Qed.

Lemma split_ws_no_empty_piece (text : jsstring) :
  text <> [] -> has_edge_space text = false ->
  Forall (fun w => nonempty w = true) (split_ws text).
Proof.
  intros Hne Hedge. apply orb_false_iff in Hedge as [Hs He].
  destruct text as [|c rest]; [congruence|].
  simpl in Hs. unfold split_ws. simpl. rewrite Hs.
  assert (Hrest : ends_with_space rest = false)
    by (destruct rest; [reflexivity | exact He]).
  by apply (split_scan_nonempty rest Hrest).
Qed.

Lemma filter_all {A} (P : A -> Prop) `{!forall x, Decision (P x)}
    (l : list A) :
  Forall P l -> filter P l = l.
Proof.
  induction 1 as [|x l Hx _ IH]; [reflexivity|].
  rewrite filter_cons_True by done. by rewrite IH.
Qed.

Lemma tokens_all_pieces (text : jsstring) :
  text <> [] -> has_edge_space text = false -> tokens text = split_ws text.
Proof.
  intros. unfold tokens. by apply filter_all, split_ws_no_empty_piece.
Qed.

Definition not_space (c : code_unit) : Prop := is_space c = false.

Lemma split_scan_not_space (s : jsstring) :
  forall in_sep piece,
    Forall not_space piece ->
    Forall (Forall not_space) (split_scan in_sep piece s).
Proof.
  induction s as [|c rest IH]; intros in_sep piece Hp; simpl.
  - by repeat constructor.
  - destruct (is_space c) eqn:Hc.
    + destruct in_sep; [|constructor; [done|]]; by apply IH.
    + apply IH, Forall_app. split; [done|]. by repeat constructor.
Qed.

Lemma split_ws_not_space (text : jsstring) :
  Forall (Forall not_space) (split_ws text).
Proof. by apply split_scan_not_space. Qed.

(** Scanning over a word without white space only extends the piece. *)
Lemma split_scan_word (w : jsstring) :
  Forall not_space w ->
  forall in_sep piece rest,
    split_scan in_sep piece (w ++ rest)
    = split_scan (match w with [] => in_sep | _ => false end)
        (piece ++ w) rest.
Proof.
  induction 1 as [|c w Hc _ IH]; intros in_sep piece rest; simpl.
  - by rewrite app_nil_r.
  - rewrite Hc, IH, <- app_assoc. by destruct w.
Qed.

(** ** [join] *)

Lemma join_cons (sep p : jsstring) (rest : list jsstring) :
  rest <> [] -> join sep (p :: rest) = p ++ sep ++ join sep rest.
Proof. by destruct rest. Qed.

Lemma join_app (sep : jsstring) (a b : list jsstring) :
  a <> [] -> b <> [] ->
  join sep (a ++ b) = join sep a ++ sep ++ join sep b.
Proof.
  intros Ha Hb. induction a as [|p a IH]; [done|].
  destruct a as [|q a].
  - simpl. by destruct b.
  - change ((p :: q :: a) ++ b) with (p :: (q :: a) ++ b).
    rewrite !join_cons, IH, <- !app_assoc by done. done.
Qed.

Lemma split_join_length (ws : list jsstring) :
  ws <> [] -> Forall (Forall not_space) ws ->
  forall in_sep piece,
    length (split_scan in_sep piece (join space ws)) <= length ws.
Proof.
  intros Hne Hws. induction Hws as [|w ws Hw Hws IH]; [done|].
  intros in_sep piece. destruct ws as [|w2 ws].
  - simpl. rewrite <- (app_nil_r w), split_scan_word by done. simpl. lia.
  - rewrite join_cons, split_scan_word by done.
    specialize (IH ltac:(done) true []).
    set (tail := join space (w2 :: ws)) in *.
    change (space ++ tail) with (32%N :: tail).
    cbn [split_scan].
    change (is_space 32%N) with true. cbv iota.
    destruct (match w with [] => in_sep | _ => false end);
      cbn [length] in *; lia.
Qed.

(** ** The batches and the [for] loop *)

Lemma batches_nil {A} (fuel : nat) : batches fuel (@nil A) = [].
Proof. by destruct fuel. Qed.

Lemma batches_cons {A} (fuel : nat) (l : list A) :
  l <> [] -> batches (S fuel) l = take 8 l :: batches fuel (drop 8 l).
Proof. by destruct l. Qed.

Lemma batches_fuel {A} (fuel extra : nat) :
  forall l : list A,
    length l <= 8 * fuel -> batches (fuel + extra) l = batches fuel l.
Proof.
  induction fuel as [|fuel IH]; intros l Hl.
  - destruct l; [|simpl in Hl; lia]. by rewrite !batches_nil.
  - destruct l as [|x l]; [done|].
    change (S fuel + extra) with (S (fuel + extra)).
    rewrite !batches_cons by done. f_equal. apply IH.
    rewrite length_drop. lia.
Qed.

Lemma batches_concat {A} (fuel : nat) :
  forall l : list A, length l <= 8 * fuel -> concat (batches fuel l) = l.
Proof.
  induction fuel as [|fuel IH]; intros l Hl.
  - destruct l; [done | simpl in Hl; lia].
  - destruct l as [|x l]; [done|].
    rewrite batches_cons by done. cbn [concat].
    rewrite IH by (rewrite length_drop; lia). apply take_drop.
Qed.

Lemma batches_sizes {A} (fuel : nat) :
  forall l : list A,
    Forall (fun b => 1 <= length b <= 8) (batches fuel l).
Proof.
  induction fuel as [|fuel IH]; intros l; [by destruct l|].
  destruct l as [|x l]; [constructor|].
  rewrite batches_cons by done. constructor; [|apply IH].
  rewrite length_take. cbn [length]. lia.
Qed.

Lemma batches_full {A} (fuel : nat) :
  forall (l : list A) k b,
    batches fuel l !! k = Some b -> S k < length (batches fuel l) ->
    length b = 8.
Proof.
  induction fuel as [|fuel IH]; intros l k b Hk Hlast;
    [by destruct l|].
  destruct l as [|x l]; [done|].
  rewrite batches_cons in Hk, Hlast by done.
  cbn [length] in Hlast.
  destruct k as [|k]; [|apply (IH (drop 8 (x :: l)) k); [done | lia]].
  injection Hk as <-.
  destruct (drop 8 (x :: l)) as [|y d] eqn:Hd.
  - rewrite batches_nil in Hlast. cbn [length] in Hlast. lia.
  - assert (length (drop 8 (x :: l)) = S (length d)) as Hlen by by rewrite Hd.
    rewrite length_drop in Hlen.
    change (length (take 8 (x :: l)) = 8). rewrite length_take. lia.
Qed.

Lemma batches_Forall {A} (P : A -> Prop) (fuel : nat) :
  forall l : list A, Forall P l -> Forall (Forall P) (batches fuel l).
Proof.
  induction fuel as [|fuel IH]; intros l Hl; [by destruct l|].
  destruct l as [|x l]; [constructor|].
  rewrite batches_cons by done.
  constructor; [by apply Forall_take | by apply IH, Forall_drop].
Qed.

Lemma join_batches (sep : jsstring) (fuel : nat) :
  forall l : list jsstring,
    length l <= 8 * fuel ->
    join sep (map (join sep) (batches fuel l)) = join sep l.
Proof.
  induction fuel as [|fuel IH]; intros l Hl.
  - destruct l; [done | simpl in Hl; lia].
  - destruct l as [|x l]; [done|].
    rewrite batches_cons by done. cbn [map].
    destruct (drop 8 (x :: l)) as [|y d] eqn:Hd.
    + assert (take 8 (x :: l) = x :: l) as ->.
      { rewrite <- (take_drop 8 (x :: l)) at 2. by rewrite Hd, app_nil_r. }
      by rewrite batches_nil.
    + assert (length (y :: d) <= 8 * fuel) as Hlen.
      { rewrite <- Hd, length_drop. lia. }
      rewrite join_cons.
      2:{ destruct fuel; [simpl in Hlen; lia | done]. }
      rewrite IH by done.
      rewrite <- (take_drop 8 (x :: l)) at 2. rewrite Hd.
      by rewrite join_app.
Qed.

(** The loop leaves by its own test, and then it has pushed one chunk per
    batch of the words from [i] on. *)
Lemma chunk_loop_batches (fuel : nat) (words : list jsstring) :
  forall i chunks,
    length words <= i + 8 * fuel ->
    chunk_loop fuel words i chunks
    = chunks ++ map (join space) (batches fuel (drop i words)).
Proof.
  induction fuel as [|fuel IH]; intros i chunks Hfuel.
  - simpl. by rewrite app_nil_r.
  - cbn [chunk_loop]. destruct (i <? length words) eqn:Hi.
    + apply Nat.ltb_lt in Hi.
      rewrite IH by lia.
      assert (drop i words <> []) as Hd.
      { intros Hd. apply (f_equal length) in Hd.
        rewrite length_drop in Hd. simpl in Hd. lia. }
      rewrite batches_cons by done. cbn [map].
      unfold slice. replace (i + 8 - i) with 8 by lia.
      rewrite drop_drop, <- app_assoc. done.
    + apply Nat.ltb_ge in Hi. rewrite drop_ge by lia.
      by rewrite app_nil_r.
Qed.

(** More fuel than the number of words changes nothing: the loop is total. *)
Lemma chunk_loop_fuel (words : list jsstring) (extra : nat) :
  chunk_loop (length words + extra) words 0 []
  = chunk_loop (length words) words 0 [].
Proof.
  rewrite !chunk_loop_batches by lia.
  rewrite drop_0. by rewrite batches_fuel by lia.
Qed.

Lemma splitIntoChunks_eq (text : jsstring) :
  splitIntoChunks text
  = map (join space)
      (batches (length (split_ws text)) (split_ws text)).
Proof.
  unfold splitIntoChunks. cbv zeta.
  rewrite chunk_loop_batches by lia. by rewrite drop_0.
Qed.

(** ** Splitting a joined list of words again *)

Lemma filter_nonempty_cons (w : jsstring) (ws : list jsstring) :
  filter (fun w => nonempty w = true) (w :: ws)
  = (if nonempty w then [w] else [])
      ++ filter (fun w => nonempty w = true) ws.
Proof.
  destruct (nonempty w) eqn:Hw.
  - by rewrite filter_cons_True.
  - rewrite filter_cons_False; [done | congruence].
Qed.

Lemma tokens_join (ws : list jsstring) :
  ws <> [] -> Forall (Forall not_space) ws ->
  forall in_sep,
    filter (fun w => nonempty w = true)
      (split_scan in_sep [] (join space ws))
    = filter (fun w => nonempty w = true) ws.
Proof.
  intros Hne Hws. induction Hws as [|w ws Hw Hws IH]; [done|].
  intros in_sep. destruct ws as [|w2 ws].
  - simpl join. rewrite <- (app_nil_r w) at 1.
    by rewrite split_scan_word.
  - rewrite join_cons, split_scan_word by done.
    specialize (IH ltac:(done) true).
    set (tail := join space (w2 :: ws)) in *.
    change (space ++ tail) with (32%N :: tail).
    cbn [split_scan]. change (is_space 32%N) with true. cbv iota.
    rewrite (filter_nonempty_cons w).
    destruct w as [|c w].
    + destruct in_sep; [done|]. by rewrite filter_nonempty_cons.
    + by rewrite filter_nonempty_cons, IH.
Qed.

Lemma chunk_tokens_bound (b : list jsstring) :
  b <> [] -> Forall (Forall not_space) b ->
  length (tokens (join space b)) <= length b.
Proof.
  intros Hne Hb. unfold tokens, split_ws.
  etransitivity; [apply length_filter|]. by apply split_join_length.
Qed.

Lemma chunks_tokens_bound (bs : list (list jsstring)) :
  Forall (fun b => 1 <= length b <= 8) bs ->
  Forall (Forall (Forall not_space)) bs ->
  Forall (fun chunk => length (tokens chunk) <= 8) (map (join space) bs).
Proof.
  induction 1 as [|b bs [Hb1 Hb8] _ IH]; intros Hw; [constructor|].
  apply Forall_cons in Hw as [Hb Hw]. cbn [map].
  constructor; [|by apply IH].
  etransitivity; [apply chunk_tokens_bound|]; [|done|done].
  destruct b; [simpl in Hb1; lia | done].
Qed.

(** ** The claims about the chunker *)

(** C10.  [splitIntoChunks] never returns an empty list: [split] on [\s+]
    never returns an empty array, so there is at least one word and the loop
    runs at least once; the empty string gives one chunk, itself empty. *)
Theorem splitIntoChunks_never_empty (text : jsstring) :
  1 <= length (splitIntoChunks text) /\
  split_ws text <> [] /\
  splitIntoChunks [] = [[]].
Proof.
  split; [|split; [apply split_ws_not_nil | reflexivity]].
  rewrite splitIntoChunks_eq.
  pose proof (split_ws_not_nil text) as Hne.
  destruct (split_ws text) as [|w ws]; [done|].
  cbn [length]. rewrite batches_cons by done. cbn [map length]. lia.
Qed.

(** C1, as the claim states it, fails on the empty string: the chunk
    sequence is not empty. *)
Lemma empty_input_gives_a_chunk : splitIntoChunks [] <> [].
Proof. discriminate. Qed.

(** Nor are empty pieces discarded: white space at the start of the text
    gives an empty first word, which ends up in the first chunk. *)
Example leading_space_is_kept :
  splitIntoChunks (js " a") = [js " a"] /\ chunker_spec (js " a") = [js "a"].
Proof. split; reflexivity. Qed.

(** C1, amended.  [splitIntoChunks] cuts the text at the runs of white
    space, no piece containing white space; it keeps every piece, the empty
    ones included, and puts them in order into batches of eight (the last
    batch holds one to eight), each batch joined by single spaces.  The empty
    string gives one chunk, itself empty.  A text that is not empty and neither
    begins nor ends with white space has no empty piece, and its chunks are
    the batches of its tokens. *)
Theorem splitIntoChunks_batches (text : jsstring) :
  let words := split_ws text in
  let bs := batches (length words) words in
  Forall (Forall not_space) words /\
  splitIntoChunks text = map (join space) bs /\
  concat bs = words /\
  Forall (fun b => 1 <= length b <= 8) bs /\
  (forall k b, bs !! k = Some b -> S k < length bs -> length b = 8) /\
  splitIntoChunks [] = [[]] /\
  (text <> [] -> has_edge_space text = false ->
   splitIntoChunks text = chunker_spec text).
Proof.
  cbv zeta. repeat split.
  - apply split_ws_not_space.
  - apply splitIntoChunks_eq.
  - apply batches_concat. lia.
  - apply batches_sizes.
  - apply batches_full.
  - intros Hne Hedge. unfold chunker_spec. cbv zeta.
    rewrite tokens_all_pieces by done. apply splitIntoChunks_eq.
Qed.

Lemma splitIntoChunks_batches_witness :
  splitIntoChunks (js "a b c d e f g h i j") = [js "a b c d e f g h"; js "i j"]
  /\ splitIntoChunks (js "a b c d e f g h i j")
     = chunker_spec (js "a b c d e f g h i j").
Proof.
  split; [reflexivity|].
  destruct (splitIntoChunks_batches (js "a b c d e f g h i j"))
    as (_ & _ & _ & _ & _ & _ & H).
  apply H; [discriminate | reflexivity].
Defined.

(** C2, as the claim states it, fails on a text that begins with white
    space: the chunks joined again begin with a space, the normalised text
    does not. *)
Lemma leading_space_survives_rejoin :
  join space (splitIntoChunks (js " a")) <> normalized (js " a").
Proof. discriminate. Qed.

(** C2, amended.  The chunks joined by single spaces are the text with every
    run of white space replaced by one space, a run at the start or at the
    end included; its tokens are the tokens of the text; no chunk has more
    than eight tokens.  When the text neither begins nor ends with white
    space the joined chunks are the normalised text. *)
Theorem rejoined_chunks (text : jsstring) :
  join space (splitIntoChunks text) = join space (split_ws text) /\
  tokens (join space (splitIntoChunks text)) = tokens text /\
  Forall (fun chunk => length (tokens chunk) <= 8) (splitIntoChunks text) /\
  (has_edge_space text = false ->
   join space (splitIntoChunks text) = normalized text).
Proof.
  assert (Hjoin : join space (splitIntoChunks text)
                  = join space (split_ws text)).
  { rewrite splitIntoChunks_eq. apply join_batches. lia. }
  repeat split.
  - exact Hjoin.
  - rewrite Hjoin. unfold tokens at 1. unfold split_ws at 1.
    apply tokens_join; [apply split_ws_not_nil | apply split_ws_not_space].
  - rewrite splitIntoChunks_eq. apply chunks_tokens_bound.
    + apply batches_sizes.
    + apply batches_Forall, split_ws_not_space.
  - intros Hedge. rewrite Hjoin. unfold normalized.
    destruct text as [|c rest]; [reflexivity|].
    by rewrite tokens_all_pieces.
Qed.

Lemma rejoined_chunks_witness :
  join space (splitIntoChunks (js "a  b")) = js "a b".
Proof.
  destruct (rejoined_chunks (js "a  b")) as (_ & _ & _ & H).
  rewrite H; reflexivity.
Defined.

End ChunkerFacts.

Module PlaybackFacts.
Import Chunker Playback.

(** Unfold the setters down to the record. *)
Ltac setters :=
  cbn [loop_after_repeat set_loop set_loops issue setUserContent setChunks
       set_chunkIndexRef setIsSpeaking setIsInterrupted setResumeRequested
       userContent chunks chunkIndexRef isSpeaking isInterrupted
       resumeRequested loops calls].

(** ** What one handler or one resumption changes *)

Lemma loop_iter_chunkIndexRef (env : closure) (st : state) :
  chunkIndexRef (loop_iter env st).1 = chunkIndexRef st.
Proof. unfold loop_iter. by repeat case_match. Qed.

Lemma speakRemainingChunks_chunkIndexRef (env : closure) (st : state) :
  chunkIndexRef (speakRemainingChunks env st) = chunkIndexRef st.
Proof.
  unfold speakRemainingChunks.
  pose proof (loop_iter_chunkIndexRef env st) as H.
  by destruct (loop_iter env st).
Qed.

Lemma step_chunkIndexRef (e : event) (st : state) :
  restarts e = false ->
  chunkIndexRef (step e st) = chunkIndexRef st \/
  (chunkIndexRef (step e st) = S (chunkIndexRef st) /\
   exists k, e = RepeatResolved k).
Proof.
  intros He. destruct e; try discriminate He; cbn [step].
  - left. unfold handleInterrupt. by repeat case_match.
  - left. unfold resumeSpeaking.
    repeat case_match; try done.
    by rewrite speakRemainingChunks_chunkIndexRef.
  - unfold repeat_resolved. repeat case_match; auto.
    right. split; [reflexivity | by eexists].
  - left. unfold repeat_rejected. by repeat case_match.
  - left. unfold timer_fired.
    destruct (loops st !! k) as [[env []]|]; try done.
    pose proof (loop_iter_chunkIndexRef env st) as H.
    by destruct (loop_iter env st).
  - by left.
  - by left.
Qed.

Lemma run_chunkIndexRef (evs : list event) :
  forall st,
    forallb (fun e => negb (restarts e)) evs = true ->
    chunkIndexRef st <= chunkIndexRef (run evs st).
Proof.
  induction evs as [|e evs IH]; intros st Hevs; [done|].
  cbn [forallb] in Hevs. apply andb_true_iff in Hevs as [He Hevs].
  apply negb_true_iff in He.
  cbn [run]. specialize (IH (step e st) Hevs).
  destruct (step_chunkIndexRef e st He) as [H|[H _]]; lia.
Qed.

Lemma loop_iter_loops (env : closure) (st : state) :
  loops (loop_iter env st).1 = loops st.
Proof. unfold loop_iter. by repeat case_match. Qed.

(** The loop reads the flags its closure captured, never the current
    ones. *)
Lemma loop_iter_stale (env : closure) (st : state) (i r : bool) :
  let st' := setIsInterrupted i (setResumeRequested r st) in
  (loop_iter env st').2 = (loop_iter env st).2 /\
  calls (loop_iter env st').1 = calls (loop_iter env st).1.
Proof. unfold loop_iter. cbn. by repeat case_match. Qed.

(** A loop whose closure was made while interrupted, with no resume
    requested, leaves at its first test without speaking. *)
Lemma loop_iter_breaks (env : closure) (st : state) :
  c_isInterrupted env = true -> c_resumeRequested env = false ->
  loop_iter env st = (setResumeRequested false st, Returned).
Proof. intros Hi Hr. unfold loop_iter. rewrite Hi, Hr. by case_match. Qed.

(** The loop never hands [undefined] to [repeatMessage]: it speaks only
    below the length of its chunk list. *)
Lemma loop_iter_speaks_a_chunk (env : closure) (st : state) :
  (loop_iter env st).2 = AwaitRepeat ->
  exists c,
    c_chunks env !! chunkIndexRef st = Some c /\
    calls (loop_iter env st).1 = calls st ++ [RepeatMessage (Some c)].
Proof.
  unfold loop_iter.
  destruct (chunkIndexRef st <? length (c_chunks env)) eqn:Hlt; [|done].
  destruct (c_isInterrupted env && negb (c_resumeRequested env)); [done|].
  intros _. apply Nat.ltb_lt, lookup_lt_is_Some_2 in Hlt as [c Hc].
  exists c. cbn. by rewrite Hc.
Qed.

Lemma speakRemainingChunks_eq (env : closure) (st : state) :
  speakRemainingChunks env st
  = set_loops (loops st ++ [Loop env (loop_iter env st).2])
      (loop_iter env st).1.
Proof.
  unfold speakRemainingChunks.
  pose proof (loop_iter_loops env st) as H.
  destruct (loop_iter env st) as [st' s]. cbn in *. by rewrite H.
Qed.

Lemma timer_fired_eq (k : nat) (st : state) (env : closure) :
  loops st !! k = Some (Loop env AwaitDelay) ->
  timer_fired k st
  = set_loop k (Loop env (loop_iter env st).2) (loop_iter env st).1.
Proof.
  intros Hk. unfold timer_fired. rewrite Hk.
  by destruct (loop_iter env st).
Qed.

(** ** The resume-requested flag is never seen set *)

Lemma loop_iter_resumeRequested (env : closure) (st : state) :
  resumeRequested st = false -> resumeRequested (loop_iter env st).1 = false.
Proof. intros Hr. unfold loop_iter. by repeat case_match. Qed.

Lemma step_resumeRequested (e : event) (st : state) :
  resumeRequested st = false -> resumeRequested (step e st) = false.
Proof.
  intros Hr. destruct e; cbn [step].
  - done.
  - destruct (speak_disabled st); [done|]. unfold startSpeaking.
    case_match; [done|]. rewrite speakRemainingChunks_eq.
    by apply loop_iter_resumeRequested.
  - destruct (interrupt_disabled st); [done|]. unfold handleInterrupt.
    by case_match.
  - destruct (resume_disabled st) eqn:Hdis; [done|].
    unfold resume_disabled in Hdis.
    apply orb_false_iff in Hdis as [Hi Hs]. apply negb_false_iff in Hi.
    unfold resumeSpeaking. case_match; [done|].
    rewrite speakRemainingChunks_eq, loop_iter_breaks by done. done.
  - unfold repeat_resolved. by repeat case_match.
  - unfold repeat_rejected. by repeat case_match.
  - unfold timer_fired. destruct (loops st !! k) as [[env []]|] eqn:Hk;
      try done.
    pose proof (loop_iter_resumeRequested env st Hr).
    by destruct (loop_iter env st).
  - done.
  - done.
Qed.

Lemma run_resumeRequested (evs : list event) :
  forall st,
    resumeRequested st = false -> resumeRequested (run evs st) = false.
Proof.
  induction evs as [|e evs IH]; intros st Hr; [done|].
  cbn [run]. by apply IH, step_resumeRequested.
Qed.

Lemma resumeSpeaking_guard (st : state) :
  isInterrupted st = false \/ isSpeaking st = true \/
    length (chunks st) <= chunkIndexRef st ->
  resumeSpeaking st = st.
Proof.
  intros H. unfold resumeSpeaking.
  destruct H as [-> | [-> | H]]; [done | by rewrite orb_true_r |].
  apply Nat.leb_le in H. rewrite H. by rewrite orb_true_r.
Qed.

(** [resumeSpeaking], when it goes past its guard with resume-requested
    false, makes a loop that returns at once: nothing is spoken and
    resume-requested is false again when the handler is through. *)
Lemma resumeSpeaking_accepted (st : state) :
  isInterrupted st = true -> isSpeaking st = false ->
  chunkIndexRef st < length (chunks st) -> resumeRequested st = false ->
  resumeSpeaking st
  = State (userContent st) (chunks st) (chunkIndexRef st) false false false
      (loops st ++ [Loop (capture st) Returned]) (calls st).
Proof.
  intros Hi Hs Hlt Hr. unfold resumeSpeaking. rewrite Hi, Hs.
  apply Nat.leb_gt in Hlt. rewrite Hlt. cbn [negb orb].
  rewrite speakRemainingChunks_eq, loop_iter_breaks by done.
  cbn [fst snd]. setters. by rewrite ?Hs.
Qed.

(** [startSpeaking] from a render whose interrupted flag is still set: the
    handler clears the flag, but the loop it starts reads the captured one
    and returns without speaking. *)
Lemma startSpeaking_stale (st : state) :
  chunks st <> [] -> isSpeaking st = false ->
  isInterrupted st = true -> resumeRequested st = false ->
  startSpeaking st
  = State (userContent st) (chunks st) 0 false false false
      (loops st ++ [Loop (capture st) Returned]) (calls st).
Proof.
  intros Hne Hs Hi Hr. unfold startSpeaking. rewrite Hs.
  destruct (chunks st) as [|c cs] eqn:Hc; [done|]. cbn [length Nat.eqb orb].
  rewrite speakRemainingChunks_eq, loop_iter_breaks by done.
  cbn [fst snd]. setters. by rewrite ?Hc, ?Hs.
Qed.

(** ** A playback that runs to the end *)

Section Run.
Variable env : closure.
Variable k : nat.
Hypothesis Hflags :
  c_isInterrupted env && negb (c_resumeRequested env) = false.

(** One round of the [k]-th loop: its [repeatMessage] resolves, the
    index moves on, the timer fires, and the loop either speaks the next
    chunk or returns. *)
Lemma playback_round (st : state) :
  loops st !! k = Some (Loop env AwaitRepeat) ->
  run [RepeatResolved k; TimerFired k] st
  = if S (chunkIndexRef st) <? length (c_chunks env) then
      State (userContent st) (chunks st) (S (chunkIndexRef st)) true
        (isInterrupted st) (resumeRequested st)
        (<[k := Loop env AwaitRepeat]> (loops st))
        (calls st ++ [SetTimeout 1000%N;
                      RepeatMessage (c_chunks env !! S (chunkIndexRef st))])
    else
      State (userContent st) (chunks st) (S (chunkIndexRef st)) false
        (isInterrupted st) false
        (<[k := Loop env Returned]> (loops st))
        (calls st ++ [SetTimeout 1000%N]).
Proof.
  destruct st as [uc ch idx sp it rr ls cs].
  cbn [userContent chunks chunkIndexRef isInterrupted resumeRequested
       loops calls].
  intros Hk. pose proof (lookup_lt_Some _ _ _ Hk) as Hlen.
  cbn [run step]. unfold repeat_resolved. cbn [loops]. rewrite Hk.
  rewrite (timer_fired_eq k _ env)
    by (setters; by apply list_lookup_insert_eq).
  unfold loop_iter. setters. rewrite Hflags.
  destruct (S idx <? length (c_chunks env));
    cbn [fst snd]; setters; rewrite list_insert_insert_eq;
    by rewrite <- ?app_assoc.
Qed.

Lemma playback_to_the_end (n : nat) :
  forall st,
    loops st !! k = Some (Loop env AwaitRepeat) ->
    chunkIndexRef st + S n = length (c_chunks env) ->
    run (playback_events k (S n)) st
    = State (userContent st) (chunks st) (length (c_chunks env)) false
        (isInterrupted st) false (<[k := Loop env Returned]> (loops st))
        (calls st ++ SetTimeout 1000%N
           :: speak_calls (drop (S (chunkIndexRef st)) (c_chunks env))).
Proof.
  induction n as [|n IH]; intros st Hk Hidx;
    pose proof (lookup_lt_Some _ _ _ Hk) as Hlen;
    change (playback_events k (S ?m))
      with ([RepeatResolved k; TimerFired k] ++ playback_events k m);
    [cbn [playback_events]; rewrite app_nil_r|];
    pose proof (playback_round st Hk) as Hround.
  - rewrite Hround.
    replace (S (chunkIndexRef st) <? length (c_chunks env)) with false
      by (symmetry; apply Nat.ltb_ge; lia).
    rewrite drop_ge by lia. f_equal. lia.
  - assert (run ([RepeatResolved k; TimerFired k] ++ playback_events k (S n)) st
            = run (playback_events k (S n))
                (run [RepeatResolved k; TimerFired k] st)) as -> by done.
    rewrite Hround.
    replace (S (chunkIndexRef st) <? length (c_chunks env)) with true
      by (symmetry; apply Nat.ltb_lt; lia).
    rewrite IH; cbn [loops chunkIndexRef]; [| by apply list_lookup_insert_eq | lia].
    destruct (lookup_lt_is_Some_2 (c_chunks env) (S (chunkIndexRef st)))
      as [c Hc]; [lia|].
    cbn [userContent chunks isInterrupted calls].
    rewrite list_insert_insert_eq, Hc, (drop_S _ c _ Hc), <- app_assoc.
    done.
Qed.
End Run.

(** An interrupt during a chunk that is not the last one: the loop of a
    render with the interrupted flag clear goes on to the next chunk, with
    the flag set and no resume requested. *)
Lemma interrupted_loop_goes_on (env : closure) (k : nat) (st : state) :
  c_isInterrupted env && negb (c_resumeRequested env) = false ->
  loops st !! k = Some (Loop env AwaitRepeat) ->
  isSpeaking st = true ->
  S (chunkIndexRef st) < length (c_chunks env) ->
  run [ClickInterrupt; RepeatResolved k; TimerFired k] st
  = State (userContent st) (chunks st) (S (chunkIndexRef st)) true true false
      (<[k := Loop env AwaitRepeat]> (loops st))
      (calls st ++ [Interrupt; SendMessage (js "User interruption!");
                    SetTimeout 1000%N;
                    RepeatMessage (c_chunks env !! S (chunkIndexRef st))]).
Proof.
  intros Hflags Hk Hs Hlt.
  change (run [ClickInterrupt; RepeatResolved k; TimerFired k] st)
    with (run [RepeatResolved k; TimerFired k] (step ClickInterrupt st)).
  cbn [step]. unfold interrupt_disabled, handleInterrupt. rewrite Hs.
  cbn [negb]. rewrite (playback_round env k Hflags) by done.
  setters. apply Nat.ltb_lt in Hlt. rewrite Hlt.
  rewrite <- !app_assoc. reflexivity.
Qed.

Lemma spoken_speak_calls (cs : list jsstring) :
  spoken (speak_calls cs) = map Some cs.
Proof. induction cs as [|c cs IH]; [done|]. cbn. by rewrite <- IH. Qed.

(** [startSpeaking] from a render in which the interrupted flag is clear (or
    a resume is requested), followed by the resolutions of its loop: every
    chunk is handed to [repeatMessage] once, in order, each call followed by
    the [setTimeout] that the loop reaches only when the call has resolved;
    then the loop returns. *)
Lemma startSpeaking_plays_all (st : state) :
  chunks st <> [] -> isSpeaking st = false ->
  isInterrupted st && negb (resumeRequested st) = false ->
  run (playback_events (length (loops st)) (length (chunks st)))
    (startSpeaking st)
  = State (userContent st) (chunks st) (length (chunks st)) false false false
      (loops st ++ [Loop (capture st) Returned])
      (calls st ++ speak_calls (chunks st)).
Proof.
  intros Hne Hs Hflags. unfold startSpeaking. rewrite Hs.
  destruct (chunks st) as [|c cs] eqn:Hc; [done|]. cbn [length Nat.eqb orb].
  assert (c_isInterrupted (capture st) && negb (c_resumeRequested (capture st))
          = false) as Hcap by exact Hflags.
  rewrite speakRemainingChunks_eq. unfold loop_iter. setters.
  change (c_chunks (capture st)) with (chunks st).
  rewrite Hcap, Hc. cbn [length Nat.ltb Nat.leb fst snd]. setters.
  rewrite (playback_to_the_end (capture st) (length (loops st)) Hcap
             (length cs));
    change (c_chunks (capture st)) with (chunks st);
    cbn [loops chunkIndexRef].
  - rewrite Hc. cbn [userContent chunks isInterrupted calls length].
    rewrite insert_app_r_alt, Nat.sub_diag by lia.
    cbn [lookup list_lookup drop speak_calls flat_map].
    by rewrite <- app_assoc.
  - by apply list_lookup_middle.
  - by rewrite Hc.
Qed.

(** ** The claims about the handlers *)

(** C6.  [resumeSpeaking] returns at once, leaving the component as it was
    and issuing no call, when the interrupted flag is false, or the speaking
    flag is true, or the chunk index has reached the number of chunks.  The
    same holds for a click on Resume, whether the button lets it through or
    not. *)
Theorem resumeSpeaking_rejected (st : state) :
  isInterrupted st = false \/ isSpeaking st = true \/
    length (chunks st) <= chunkIndexRef st ->
  resumeSpeaking st = st /\
  step ClickResume st = st /\
  spoken (calls (resumeSpeaking st)) = spoken (calls st).
Proof.
  intros Hguard.
  assert (Hsame : resumeSpeaking st = st) by by apply resumeSpeaking_guard.
  split; [done|]. split; [|by rewrite Hsame].
  cbn [step]. by destruct (resume_disabled st).
Qed.

Lemma resumeSpeaking_rejected_witness :
  resumeSpeaking (State (js "a") [js "a"] 1 false true false [] [])
  = State (js "a") [js "a"] 1 false true false [] [].
Proof.
  apply (resumeSpeaking_rejected
           (State (js "a") [js "a"] 1 false true false [] [])).
  right. right. simpl. lia.
Defined.

(** C7.  [handleInterrupt] does nothing unless the speaking flag is true;
    when it is, the handler sets interrupted, clears resume-requested, calls
    [interrupt()] and then [sendMessage(userInput)], and returns without
    waiting: no loop is touched and nothing is left suspended. *)
Theorem handleInterrupt_effect (userInput : jsstring) (st : state) :
  (isSpeaking st = false -> handleInterrupt userInput st = st) /\
  (isSpeaking st = true ->
   handleInterrupt userInput st
   = State (userContent st) (chunks st) (chunkIndexRef st) true true false
       (loops st) (calls st ++ [Interrupt; SendMessage userInput])).
Proof.
  unfold handleInterrupt. split; intros Hsp; rewrite Hsp; [done|].
  unfold issue, setResumeRequested, setIsInterrupted. cbn.
  rewrite Hsp. by rewrite <- app_assoc.
Qed.

Lemma handleInterrupt_effect_witness :
  handleInterrupt (js "stop") (State (js "a") [js "a"] 0 true false true [] [])
  = State (js "a") [js "a"] 0 true true false []
      [Interrupt; SendMessage (js "stop")].
Proof.
  apply (proj2 (handleInterrupt_effect (js "stop")
                  (State (js "a") [js "a"] 0 true false true [] []))).
  reflexivity.
Defined.

(** C8.  Whatever happens except new text and a fresh playback leaves the
    chunk index where it is or, when a [repeatMessage] of a loop resolves,
    adds one to it: over any such run the index never decreases.  [onChange]
    chunks the new text and sets the index to zero; [startSpeaking], when it
    starts a playback, sets the index to zero. *)
Theorem chunkIndexRef_monotone_and_reset :
  (forall evs st,
     forallb (fun e => negb (restarts e)) evs = true ->
     chunkIndexRef st <= chunkIndexRef (run evs st)) /\
  (forall e st,
     loop_event e = true ->
     chunkIndexRef (step e st) = chunkIndexRef st \/
     chunkIndexRef (step e st) = S (chunkIndexRef st)) /\
  (forall input st,
     chunks (onChange input st) = splitIntoChunks input /\
     chunkIndexRef (onChange input st) = 0) /\
  (forall st,
     chunks st <> [] -> isSpeaking st = false ->
     startSpeaking st <> st /\ chunkIndexRef (startSpeaking st) = 0).
Proof.
  split; [exact run_chunkIndexRef|]. split; [|split].
  - intros e st He.
    destruct (step_chunkIndexRef e st) as [H|[H _]]; auto.
    by destruct e.
  - done.
  - intros st Hne Hsp. unfold startSpeaking. rewrite Hsp.
    destruct (chunks st) as [|c cs] eqn:Hc; [done|]. cbn [length Nat.eqb orb].
    split.
    + intros Heq. apply (f_equal (fun s => length (loops s))) in Heq.
      revert Heq. unfold speakRemainingChunks.
      destruct (loop_iter _ _) as [st' s] eqn:Hit. cbn.
      assert (loops st' = loops st) as ->.
      { revert Hit. unfold loop_iter. repeat case_match; by intros [= <- <-]. }
      rewrite length_app. cbn. lia.
    + by rewrite speakRemainingChunks_chunkIndexRef.
Qed.

Lemma chunkIndexRef_monotone_and_reset_witness :
  2 <= chunkIndexRef
         (run [ClickInterrupt; RepeatResolved 0; ClickResume; TimerFired 0]
            (State (js "a") [js "a"] 2 true false false
               [Loop (Closure [js "a"] false false) AwaitRepeat] [])) /\
  chunkIndexRef
    (startSpeaking (State (js "a") [js "a"] 2 false false false [] [])) = 0.
Proof.
  destruct chunkIndexRef_monotone_and_reset as (Hrun & _ & _ & Hstart).
  split.
  - apply (Hrun [ClickInterrupt; RepeatResolved 0; ClickResume; TimerFired 0]
             (State (js "a") [js "a"] 2 true false false
                [Loop (Closure [js "a"] false false) AwaitRepeat] [])).
    reflexivity.
  - apply (Hstart (State (js "a") [js "a"] 2 false false false [] []));
      [discriminate | reflexivity].
Defined.

(** ** The claims about the loop *)

(** C3, at a failing input.  The text "a b" is one chunk.  It is spoken
    once and interrupted while it is spoken; the call resolves and the loop
    returns.  Speak is enabled, no loop is left running, the interrupted flag
    is still set.  The click on Speak now goes past the guard of
    [startSpeaking], which clears the flag and resets the index, but the
    loop it starts reads the flag its closure captured and returns at once:
    no chunk is handed to [repeatMessage], where the claim has one call per
    chunk.  A second click, made in a render with the flag clear, speaks the
    chunk. *)
Theorem startSpeaking_after_interrupt_speaks_nothing :
  let st := run [Change (js "a b"); ClickSpeak; ClickInterrupt;
                 RepeatResolved 0; TimerFired 0] initial in
  let st' := step ClickSpeak st in
  (chunks st = [js "a b"] /\ speak_disabled st = false /\
   existsb pending (loops st) = false /\ isInterrupted st = true /\
   spoken (calls st) = [Some (js "a b")]) /\
  (st' = startSpeaking st /\
   loops st' = loops st ++ [Loop (Closure [js "a b"] true false) Returned] /\
   isInterrupted st' = false /\ chunkIndexRef st' = 0 /\
   spoken (calls st') = [Some (js "a b")]) /\
  spoken (calls (run (ClickSpeak :: playback_events 2 1) st'))
  = [Some (js "a b"); Some (js "a b")].
Proof. vm_compute. repeat split. Qed.

(** C4, at a failing input.  Nine words make two chunks.  The first chunk
    is interrupted while it is spoken: [handleInterrupt] sets the flag and
    leaves the loop suspended at its [await], so the call in flight is not
    cancelled.  The call resolves and the timer fires with the interrupted
    flag set and no resume requested; the loop, which tests the flag of the
    render that started it, does not leave and hands the second chunk to
    [repeatMessage]. *)
Theorem interrupt_does_not_halt_loop :
  let st := run [Change (js "a b c d e f g h i"); ClickSpeak;
                 ClickInterrupt] initial in
  let st1 := step (RepeatResolved 0) st in
  let st2 := step (TimerFired 0) st1 in
  (isInterrupted st = true /\ resumeRequested st = false /\
   loops st = [Loop (Closure [js "a b c d e f g h"; js "i"] false false)
                 AwaitRepeat] /\
   spoken (calls st) = [Some (js "a b c d e f g h")]) /\
  (isInterrupted st1 = true /\ resumeRequested st1 = false /\
   chunkIndexRef st1 = 1 /\
   loops st1 = [Loop (Closure [js "a b c d e f g h"; js "i"] false false)
                  AwaitDelay]) /\
  (isInterrupted st2 = true /\ resumeRequested st2 = false /\
   loops st2 = [Loop (Closure [js "a b c d e f g h"; js "i"] false false)
                  AwaitRepeat] /\
   spoken (calls st2) = [Some (js "a b c d e f g h"); Some (js "i")]).
Proof. vm_compute. repeat split. Qed.

(** C5, at a failing input and in general.  Whatever has happened since the
    component was mounted, [resumeSpeaking] hands nothing to
    [repeatMessage] and leaves resume-requested false: when it goes past its
    guard, the loop it starts reads the interrupted flag that its closure
    captured, which is set, and returns at its first test.  So it is after
    an interrupt of the first of two chunks: Resume is enabled and the guard
    passes, yet the loop made by [resumeSpeaking] returns without speaking
    and resume-requested is false.  The index is left at 1; the second chunk
    is spoken by the first loop, which never stopped. *)
Theorem resumeSpeaking_speaks_nothing :
  (forall evs,
     let st := run evs initial in
     calls (resumeSpeaking st) = calls st /\
     resumeRequested (resumeSpeaking st) = false /\
     chunkIndexRef (resumeSpeaking st) = chunkIndexRef st) /\
  let st := run [Change (js "a b c d e f g h i"); ClickSpeak;
                 ClickInterrupt; RepeatResolved 0] initial in
  let st' := step ClickResume st in
  (isInterrupted st = true /\ isSpeaking st = false /\
   chunkIndexRef st = 1 /\ length (chunks st) = 2 /\
   resume_disabled st = false) /\
  (st' = resumeSpeaking st /\
   loops st' = loops st
               ++ [Loop (Closure [js "a b c d e f g h"; js "i"] true false)
                     Returned] /\
   calls st' = calls st /\ resumeRequested st' = false /\
   isInterrupted st' = false /\ chunkIndexRef st' = 1).
Proof.
  split; [|vm_compute; repeat split].
  intros evs st.
  assert (Hr : resumeRequested st = false) by by apply run_resumeRequested.
  destruct (isInterrupted st) eqn:Hi; [destruct (isSpeaking st) eqn:Hs|].
  - rewrite resumeSpeaking_guard; auto.
  - destruct (decide (chunkIndexRef st < length (chunks st))) as [Hlt|Hge].
    + by rewrite resumeSpeaking_accepted.
    + rewrite resumeSpeaking_guard; [done|]. right. right. lia.
  - rewrite resumeSpeaking_guard; auto.
Qed.

End PlaybackFacts.

Module SessionFacts.
Import Chunker Session.

Lemma startSessionV2_caught (isVoiceChat : bool) (w : world) :
  (startSessionV2 isVoiceChat w []).1 = Fulfilled tt.
Proof.
  destruct w as [[[]|r] [[|c t]|r'] [[]|r1] [[]|r2] [[]|r3]];
    destruct isVoiceChat; vm_compute; reflexivity.
Qed.

(** C9.  When the fetch rejects, or resolves with an empty body,
    [startSessionV2] makes no further call but [console.error]: the avatar
    is not initialised and nothing is started.  The rejection never leaves
    the function, there is exactly one [fetch] whatever the collaborators
    answer, and a start call is made only after a token that is not empty
    has been read and handed to [initAvatar]. *)
Theorem startSessionV2_token_failure (isVoiceChat : bool) (w : world) :
  let cs := session_calls isVoiceChat w in
  (forall r,
     fetch_result w = Rejected r ->
     cs = [Fetch token_url (js "POST"); ConsoleError error_prefix r]) /\
  (fetch_result w = Fulfilled tt -> text_result w = Fulfilled [] ->
   cs = [Fetch token_url (js "POST"); ResponseText;
         ConsoleError error_prefix (js "No access token")]) /\
  (startSessionV2 isVoiceChat w []).1 = Fulfilled tt /\
  length (List.filter is_fetch cs) = 1 /\
  (existsb is_init cs || existsb is_start cs = true ->
   exists token,
     token <> [] /\ fetch_result w = Fulfilled tt /\
     text_result w = Fulfilled token /\
     take 3 cs = [Fetch token_url (js "POST"); ResponseText;
                  InitAvatar token]).
Proof.
  cbv zeta. split; [|split; [|split; [|split]]].
  - intros r Hr. destruct w as [f t i a v]. cbn in Hr. subst f.
    vm_compute. reflexivity.
  - intros Hf Ht. destruct w as [f t i a v]. cbn in Hf, Ht. subst f t.
    vm_compute. reflexivity.
  - apply startSessionV2_caught.
  - destruct w as [[[]|r] [[|c t]|r'] [[]|r1] [[]|r2] [[]|r3]];
      destruct isVoiceChat; vm_compute; reflexivity.
  - destruct w as [[[]|r] [[|c t]|r'] [[]|r1] [[]|r2] [[]|r3]];
      destruct isVoiceChat; intros H; vm_compute in H; try discriminate H;
      exists (c :: t); repeat split; try discriminate; vm_compute;
      reflexivity.
Qed.

Lemma startSessionV2_token_failure_witness :
  session_calls true
    (World (Fulfilled tt) (Fulfilled []) (Fulfilled tt) (Fulfilled tt)
       (Fulfilled tt))
  = [Fetch token_url (js "POST"); ResponseText;
     ConsoleError error_prefix (js "No access token")] /\
  session_calls false
    (World (Rejected (js "Failed to fetch")) (Fulfilled (js "tok"))
       (Fulfilled tt) (Fulfilled tt) (Fulfilled tt))
  = [Fetch token_url (js "POST");
     ConsoleError error_prefix (js "Failed to fetch")].
Proof.
  split.
  - apply (startSessionV2_token_failure true
             (World (Fulfilled tt) (Fulfilled []) (Fulfilled tt)
                (Fulfilled tt) (Fulfilled tt))); vm_compute; reflexivity.
  - apply (startSessionV2_token_failure false
             (World (Rejected (js "Failed to fetch")) (Fulfilled (js "tok"))
                (Fulfilled tt) (Fulfilled tt) (Fulfilled tt)));
      vm_compute; reflexivity.
Defined.

End SessionFacts.

(** * Further properties of the chunker *)

Module ChunkerExtras.
Import Chunker ChunkerFacts.

Lemma batches_length {A} (fuel : nat) :
  forall l : list A,
    length l <= 8 * fuel ->
    length l <= 8 * length (batches fuel l) /\
    8 * length (batches fuel l) < length l + 8.
Proof.
  induction fuel as [|fuel IH]; intros l Hl.
  - destruct l; simpl in *; lia.
  - destruct l as [|x l]; [simpl; lia|].
    rewrite batches_cons by done.
    pose proof (length_drop (x :: l) 8) as Hd.
    destruct (IH (drop 8 (x :: l))) as [Hlo Hhi]; [lia|].
    cbn [length] in *. lia.
Qed.

(** X1.  The number of chunks is the number of words divided by eight,
    rounded up. *)
Theorem chunk_count (text : jsstring) :
  length (splitIntoChunks text) = (length (split_ws text) + 7) / 8.
Proof.
  rewrite splitIntoChunks_eq, length_map.
  destruct (batches_length (length (split_ws text)) (split_ws text))
    as [Hlo Hhi]; [lia|].
  apply Nat.div_unique with
    (r := length (split_ws text) + 7
          - 8 * length (batches (length (split_ws text)) (split_ws text)));
    lia.
Qed.

(** X2.  A text without white space, the empty text included, is its own
    single chunk. *)
Theorem splitIntoChunks_one_word (text : jsstring) :
  Forall not_space text -> splitIntoChunks text = [text].
Proof.
  intros Hw. rewrite splitIntoChunks_eq.
  assert (split_ws text = [text]) as ->; [|reflexivity].
  unfold split_ws. rewrite <- (app_nil_r text) at 1.
  by rewrite split_scan_word.
Qed.

Lemma splitIntoChunks_one_word_witness :
  splitIntoChunks (js "hello,world") = [js "hello,world"].
Proof.
  apply (splitIntoChunks_one_word (js "hello,world")).
  repeat constructor.
Defined.

Lemma join_plain_space (ws : list jsstring) :
  Forall (Forall not_space) ws -> Forall plain_space (join space ws).
Proof.
  induction 1 as [|w ws Hw _ IH]; [constructor|].
  assert (Forall plain_space w) as Hw'.
  { eapply Forall_impl; [exact Hw|]. unfold not_space, plain_space. congruence. }
  destruct ws as [|w2 ws]; [done|].
  rewrite join_cons by done. apply Forall_app. split; [done|].
  apply Forall_app. split; [|done]. by repeat constructor.
Qed.

(** X3.  Whatever white space the text holds (tabs, line ends, no-break
    spaces, runs of them), the only white space in a chunk is U+0020. *)
Theorem chunks_plain_space (text : jsstring) :
  Forall (Forall plain_space) (splitIntoChunks text).
Proof.
  rewrite splitIntoChunks_eq. apply Forall_map.
  eapply Forall_impl;
    [apply batches_Forall, split_ws_not_space|].
  intros b Hb. by apply join_plain_space.
Qed.

Lemma split_scan_inner (s : jsstring) :
  (forall i w,
     split_scan true [] s !! i = Some w ->
     S i < length (split_scan true [] s) -> w <> []) /\
  (forall piece i w,
     split_scan false piece s !! i = Some w ->
     S i < length (split_scan false piece s) ->
     0 < i \/ piece <> [] -> w <> []).
Proof.
  induction s as [|c rest [IHt IHf]]; (split; [intros i w|intros piece i w]);
    cbn [split_scan].
  - cbn [length]. lia.
  - cbn [length]. lia.
  - destruct (is_space c); [apply IHt|].
    intros Hi Hlen. apply (IHf _ _ _ Hi Hlen). by right.
  - destruct (is_space c).
    + destruct i as [|i]; cbn [lookup list_lookup length].
      * intros [= <-] _ [?|?]; [lia | done].
      * intros Hi Hlen _. apply (IHt i w Hi). lia.
    + intros Hi Hlen _. apply (IHf _ _ _ Hi Hlen). right. by destruct piece.
Qed.

(** X4.  Of the words [split] returns only the first and the last can be
    empty (before white space at the start, after white space at the end);
    every word in between has at least one code unit. *)
Theorem split_ws_inner_words (text : jsstring) (i : nat) (w : jsstring) :
  split_ws text !! i = Some w ->
  0 < i -> S i < length (split_ws text) ->
  w <> [].
Proof.
  intros Hi Hpos Hlen.
  apply (proj2 (split_scan_inner text) [] i w Hi Hlen). by left.
Qed.

Lemma split_ws_inner_words_witness :
  split_ws (js " a bb  c ") = [[]; js "a"; js "bb"; js "c"; []] /\
  js "bb" <> [].
Proof.
  split; [reflexivity|].
  apply (split_ws_inner_words (js " a bb  c ") 2 (js "bb"));
    [reflexivity | lia | simpl; lia].
Defined.

(** Joining words of which only the last may be empty, and splitting
    again from inside a run of white space, gives the words back. *)
Lemma split_join_after_space (ws : list jsstring) :
  ws <> [] -> Forall (Forall not_space) ws ->
  (forall i w, ws !! i = Some w -> S i < length ws -> w <> []) ->
  split_scan true [] (join space ws) = ws.
Proof.
  intros Hne Hws. induction Hws as [|w ws Hw Hws IH]; [done|].
  intros Hin. destruct ws as [|w2 ws].
  - cbn [join]. rewrite <- (app_nil_r w) at 1.
    rewrite split_scan_word by done. cbn. by destruct w.
  - assert (w <> []) as Hw0 by (apply (Hin 0); [done | cbn; lia]).
    rewrite join_cons, split_scan_word by done.
    destruct w as [|c w]; [done|].
    change (space ++ ?t) with (32%N :: t). cbn [split_scan].
    change (is_space 32%N) with true. cbv iota. cbn [app].
    f_equal. apply IH; [done|].
    intros i v Hi Hlen. apply (Hin (S i)); [done | cbn in *; lia].
Qed.

Lemma split_join_words (ws : list jsstring) :
  ws <> [] -> Forall (Forall not_space) ws ->
  (forall i w, ws !! i = Some w -> 0 < i -> S i < length ws -> w <> []) ->
  split_ws (join space ws) = ws.
Proof.
  intros Hne Hws Hin. unfold split_ws.
  destruct ws as [|w [|w2 ws]]; [done| |].
  - cbn [join]. rewrite <- (app_nil_r w) at 1.
    apply Forall_cons in Hws as [Hw _]. by rewrite split_scan_word.
  - apply Forall_cons in Hws as [Hw Hws].
    rewrite join_cons, split_scan_word by done.
    change (space ++ ?t) with (32%N :: t).
    assert (split_scan true [] (join space (w2 :: ws)) = w2 :: ws) as Htail.
    { apply split_join_after_space; [done..|].
      intros i v Hi Hlen. apply (Hin (S i)); [done | lia | cbn in *; lia]. }
    destruct w; cbn [split_scan app]; change (is_space 32%N) with true;
      cbv iota; by rewrite Htail.
Qed.

(** X20.  Joining the chunks by single spaces and chunking the result gives
    the same chunks again: the words of the joined text are the words of the
    text. *)
Theorem splitIntoChunks_rejoin (text : jsstring) :
  split_ws (join space (split_ws text)) = split_ws text /\
  splitIntoChunks (join space (splitIntoChunks text)) = splitIntoChunks text.
Proof.
  assert (Hwords : split_ws (join space (split_ws text)) = split_ws text).
  { apply split_join_words.
    - apply split_ws_not_nil.
    - apply split_ws_not_space.
    - intros i w Hi Hpos Hlen.
      apply (proj2 (split_scan_inner text) [] i w Hi Hlen). by left. }
  split; [exact Hwords|].
  assert (join space (splitIntoChunks text) = join space (split_ws text))
    as -> by (rewrite splitIntoChunks_eq; apply join_batches; lia).
  by rewrite (splitIntoChunks_eq (join space _)), Hwords,
       <- splitIntoChunks_eq.
Qed.

End ChunkerExtras.

(** * Further properties of the playback sequencer *)

Module PlaybackExtras.
Import Chunker Playback ChunkerFacts PlaybackFacts.

(** ** Helpers *)

Lemma spoken_app (a b : list call) : spoken (a ++ b) = spoken a ++ spoken b.
Proof. apply omap_app. Qed.

Lemma loop_iter_text (env : closure) (st : state) :
  userContent (loop_iter env st).1 = userContent st /\
  chunks (loop_iter env st).1 = chunks st.
Proof. unfold loop_iter. by repeat case_match. Qed.

Lemma step_text (e : event) (st : state) :
  (forall input, e <> Change input) ->
  userContent (step e st) = userContent st /\
  chunks (step e st) = chunks st.
Proof.
  intros He. destruct e; cbn [step].
  - by destruct (He input).
  - destruct (speak_disabled st); [done|]. unfold startSpeaking.
    case_match; [done|]. rewrite speakRemainingChunks_eq.
    cbn [set_loops userContent chunks].
    by rewrite (proj1 (loop_iter_text _ _)), (proj2 (loop_iter_text _ _)).
  - destruct (interrupt_disabled st); [done|]. unfold handleInterrupt.
    by case_match.
  - destruct (resume_disabled st); [done|]. unfold resumeSpeaking.
    case_match; [done|]. rewrite speakRemainingChunks_eq.
    cbn [set_loops userContent chunks].
    by rewrite (proj1 (loop_iter_text _ _)), (proj2 (loop_iter_text _ _)).
  - unfold repeat_resolved. by repeat case_match.
  - unfold repeat_rejected. by repeat case_match.
  - unfold timer_fired. destruct (loops st !! k) as [[env []]|]; try done.
    pose proof (loop_iter_text env st).
    by destruct (loop_iter env st).
  - done.
  - done.
Qed.

Lemma step_chunks_of_text (e : event) (st : state) :
  chunks_of_text st -> chunks_of_text (step e st).
Proof.
  intros Hinv.
  assert ((exists input, e = Change input) \/ forall input, e <> Change input)
    as [[input ->]|Hne] by (destruct e; eauto).
  - by right.
  - destruct (step_text e st Hne) as [Hu Hc].
    unfold chunks_of_text. by rewrite Hu, Hc.
Qed.

Lemma run_chunks_of_text (evs : list event) :
  forall st, chunks_of_text st -> chunks_of_text (run evs st).
Proof.
  induction evs as [|e evs IH]; intros st Hinv; [done|].
  cbn [run]. by apply IH, step_chunks_of_text.
Qed.

Lemma splitIntoChunks_not_nil (text : jsstring) : splitIntoChunks text <> [].
Proof.
  rewrite splitIntoChunks_eq.
  pose proof (split_ws_not_nil text) as Hne.
  destruct (split_ws text) as [|w ws]; [done|].
  cbn [length]. by rewrite batches_cons.
Qed.

Lemma loop_iter_defined (env : closure) (st : state) :
  Forall is_Some (spoken (calls st)) ->
  Forall is_Some (spoken (calls (loop_iter env st).1)).
Proof.
  intros Hst. destruct (loop_iter env st).2 eqn:Hs.
  - destruct (loop_iter_speaks_a_chunk env st Hs) as (c & _ & ->).
    rewrite spoken_app. apply Forall_app. split; [done|].
    by repeat constructor.
  - revert Hs. unfold loop_iter. by repeat case_match.
  - revert Hs. unfold loop_iter. by repeat case_match.
  - revert Hs. unfold loop_iter. by repeat case_match.
Qed.

Lemma step_defined (e : event) (st : state) :
  Forall is_Some (spoken (calls st)) ->
  Forall is_Some (spoken (calls (step e st))).
Proof.
  intros Hst. destruct e; cbn [step].
  - done.
  - destruct (speak_disabled st); [done|]. unfold startSpeaking.
    case_match; [done|]. rewrite speakRemainingChunks_eq. cbn [set_loops calls].
    by apply loop_iter_defined.
  - destruct (interrupt_disabled st); [done|]. unfold handleInterrupt.
    case_match; [done|]. cbn. rewrite !spoken_app. cbn.
    by rewrite !app_nil_r.
  - destruct (resume_disabled st); [done|]. unfold resumeSpeaking.
    case_match; [done|]. rewrite speakRemainingChunks_eq. cbn [set_loops calls].
    by apply loop_iter_defined.
  - unfold repeat_resolved. repeat case_match; try done.
    cbn. rewrite spoken_app. cbn. by rewrite app_nil_r.
  - unfold repeat_rejected. by repeat case_match.
  - unfold timer_fired. destruct (loops st !! k) as [[env []]|]; try done.
    pose proof (loop_iter_defined env st Hst).
    by destruct (loop_iter env st).
  - done.
  - done.
Qed.

Lemma startSpeaking_guard (st : state) :
  chunks st = [] \/ isSpeaking st = true -> startSpeaking st = st.
Proof.
  intros [H|H]; unfold startSpeaking; rewrite H; [done|].
  by rewrite orb_true_r.
Qed.

(** ** The flags and the text *)

(** X5.  The resume-requested flag is false after every event, whatever has
    happened since the component was mounted: the only handler that sets it
    starts, in the same turn, a loop that clears it again. *)
Theorem resumeRequested_never_set (evs : list event) :
  resumeRequested (run evs initial) = false.
Proof. by apply run_resumeRequested. Qed.

(** X6.  [startSpeaking] returns at once, changing nothing and issuing no
    call, when there are no chunks or the speaking flag is set; so does a
    click on Speak. *)
Theorem startSpeaking_rejected (st : state) :
  chunks st = [] \/ isSpeaking st = true ->
  startSpeaking st = st /\ step ClickSpeak st = st.
Proof.
  intros Hguard. pose proof (startSpeaking_guard st Hguard) as Hsame.
  split; [done|]. cbn [step]. by destruct (speak_disabled st).
Qed.

Lemma startSpeaking_rejected_witness :
  startSpeaking (State (js "a") [js "a"] 0 true false false [] [])
  = State (js "a") [js "a"] 0 true false false [] [].
Proof.
  apply (startSpeaking_rejected
           (State (js "a") [js "a"] 0 true false false [] [])).
  by right.
Defined.

(** X7.  After every event the chunk list is the chunking of the text in
    the input, or both are empty because nothing was typed yet. *)
Theorem chunks_follow_text (evs : list event) :
  let st := run evs initial in
  (userContent st = [] /\ chunks st = []) \/
  chunks st = splitIntoChunks (userContent st).
Proof. apply run_chunks_of_text. by left. Qed.

(** X8.  Whenever the Speak button is enabled, a click on it goes past the
    guard of [startSpeaking]: one more loop is started, the index is zero
    and the interrupted flag is clear. *)
Theorem enabled_speak_starts_a_loop (evs : list event) :
  let st := run evs initial in
  speak_disabled st = false ->
  length (loops (step ClickSpeak st)) = S (length (loops st)) /\
  chunkIndexRef (step ClickSpeak st) = 0 /\
  isInterrupted (step ClickSpeak st) = false.
Proof.
  intros st Hen. cbn [step]. rewrite Hen.
  unfold speak_disabled in Hen. apply orb_false_iff in Hen as [Hu Hs].
  apply negb_false_iff in Hu.
  assert (chunks st <> []) as Hne.
  { destruct (run_chunks_of_text evs initial) as [[Hnil _]|Hc]; [by left| |].
    - fold st in Hnil. by rewrite Hnil in Hu.
    - fold st in Hc. rewrite Hc. apply splitIntoChunks_not_nil. }
  unfold startSpeaking. rewrite Hs.
  destruct (chunks st) as [|c cs] eqn:Hc; [done|]. cbn [length Nat.eqb orb].
  rewrite speakRemainingChunks_eq. setters.
  rewrite length_app. cbn [length]. split; [lia|].
  unfold loop_iter. setters. by repeat case_match.
Qed.

Lemma enabled_speak_starts_a_loop_witness :
  length (loops (step ClickSpeak (run [Change (js "a")] initial))) = 1.
Proof.
  apply (enabled_speak_starts_a_loop [Change (js "a")]). reflexivity.
Defined.

(** X9.  [repeatMessage] is never handed [undefined]: every call the
    component ever makes to it carries a chunk. *)
Theorem spoken_chunks_defined (evs : list event) :
  Forall is_Some (spoken (calls (run evs initial))).
Proof.
  assert (forall st, Forall is_Some (spoken (calls st)) ->
                     Forall is_Some (spoken (calls (run evs st)))) as Hrun.
  { induction evs as [|e evs IH]; intros st Hst; [done|].
    cbn [run]. by apply IH, step_defined. }
  apply Hrun. constructor.
Qed.

(** ** Playbacks *)

(** X10.  A playback started while nothing is spoken and the interrupted
    flag is clear, and left alone: every chunk is handed to [repeatMessage]
    once, in order, each call followed by the [setTimeout] of the pause;
    then the loop has returned, the speaking flag is clear and the index
    stands at the number of chunks. *)
Theorem fresh_playback_speaks_every_chunk (st : state) :
  chunks st <> [] -> isSpeaking st = false -> isInterrupted st = false ->
  let st' := run (playback_events (length (loops st)) (length (chunks st)))
               (startSpeaking st) in
  calls st' = calls st ++ speak_calls (chunks st) /\
  spoken (calls st') = spoken (calls st) ++ map Some (chunks st) /\
  loops st' = loops st ++ [Loop (capture st) Returned] /\
  isSpeaking st' = false /\
  chunkIndexRef st' = length (chunks st).
Proof.
  intros Hne Hs Hi st'. subst st'.
  rewrite startSpeaking_plays_all by (by rewrite ?Hi).
  cbn [calls loops isSpeaking chunkIndexRef].
  by rewrite spoken_app, spoken_speak_calls.
Qed.

Lemma fresh_playback_speaks_every_chunk_witness :
  spoken (calls (run (playback_events 0 2)
                   (startSpeaking
                      (State (js "a b") [js "a"; js "b"] 0 false false false
                         [] []))))
  = [Some (js "a"); Some (js "b")].
Proof.
  apply (fresh_playback_speaks_every_chunk
           (State (js "a b") [js "a"; js "b"] 0 false false false [] []));
    [discriminate | reflexivity | reflexivity].
Defined.

(** X11.  When such a playback is through, Resume does nothing, and Speak
    plays the whole sequence again from the first chunk. *)
Theorem playback_can_be_repeated (st : state) :
  chunks st <> [] -> isSpeaking st = false -> isInterrupted st = false ->
  let n := length (chunks st) in
  let k := length (loops st) in
  let st1 := run (playback_events k n) (startSpeaking st) in
  resumeSpeaking st1 = st1 /\
  spoken (calls (run (playback_events (S k) n) (startSpeaking st1)))
  = spoken (calls st) ++ map Some (chunks st) ++ map Some (chunks st).
Proof.
  intros Hne Hs Hi n k st1. subst n k st1.
  rewrite startSpeaking_plays_all by (by rewrite ?Hi).
  set (st1 := State _ _ _ _ _ _ _ _).
  split; [by apply resumeSpeaking_guard; left|].
  pose proof (startSpeaking_plays_all st1 Hne eq_refl eq_refl) as Hagain.
  cbn [st1 loops chunks calls] in Hagain.
  rewrite length_app, Nat.add_1_r in Hagain. cbn [length] in Hagain.
  fold st1 in Hagain. rewrite Hagain. cbn [calls].
  by rewrite !spoken_app, !spoken_speak_calls, <- app_assoc.
Qed.

Lemma playback_can_be_repeated_witness :
  spoken (calls (run (playback_events 1 1)
                   (startSpeaking
                      (run (playback_events 0 1)
                         (startSpeaking
                            (State (js "a") [js "a"] 0 false false false
                               [] []))))))
  = [Some (js "a"); Some (js "a")].
Proof.
  apply (playback_can_be_repeated
           (State (js "a") [js "a"] 0 false false false [] []));
    [discriminate | reflexivity | reflexivity].
Defined.



(** X13.  The buttons and the guards.  When Interrupt is enabled, Speak and
    Resume are disabled.  A handler whose button is disabled would return
    at once for Interrupt and for Resume. *)
Theorem buttons_exclusive (userInput : jsstring) (st : state) :
  (interrupt_disabled st = false ->
   speak_disabled st = true /\ resume_disabled st = true) /\
  (interrupt_disabled st = true -> handleInterrupt userInput st = st) /\
  (resume_disabled st = true -> resumeSpeaking st = st).
Proof.
  unfold interrupt_disabled, speak_disabled, resume_disabled.
  repeat split.
  - apply negb_false_iff in H. rewrite H. apply orb_true_r.
  - apply negb_false_iff in H. rewrite H. apply orb_true_r.
  - intros H. unfold handleInterrupt. by rewrite H.
  - intros H. unfold resumeSpeaking. by rewrite H.
Qed.

Lemma buttons_exclusive_witness :
  speak_disabled (run [Change (js "a"); ClickSpeak] initial) = true /\
  resumeSpeaking initial = initial.
Proof.
  split.
  - apply (buttons_exclusive [] (run [Change (js "a"); ClickSpeak] initial)).
    reflexivity.
  - apply (buttons_exclusive [] initial). reflexivity.
Defined.

(** X14.  New text typed while a chunk is spoken issues no call and leaves
    the loop suspended; the loop keeps the chunk list it captured.  The
    index was reset, so when the call resolves and the timer fires the loop
    goes on with the second chunk of its old list, or returns if that list
    has no second chunk. *)
Theorem text_change_during_playback
    (env : closure) (k : nat) (input : jsstring) (st : state) :
  c_isInterrupted env && negb (c_resumeRequested env) = false ->
  loops st !! k = Some (Loop env AwaitRepeat) ->
  let st1 := step (Change input) st in
  (loops st1 = loops st /\ calls st1 = calls st /\
   isSpeaking st1 = isSpeaking st /\ chunkIndexRef st1 = 0) /\
  run [RepeatResolved k; TimerFired k] st1
  = if 1 <? length (c_chunks env) then
      State input (splitIntoChunks input) 1 true false false
        (<[k := Loop env AwaitRepeat]> (loops st))
        (calls st ++ [SetTimeout 1000%N; RepeatMessage (c_chunks env !! 1)])
    else
      State input (splitIntoChunks input) 1 false false false
        (<[k := Loop env Returned]> (loops st))
        (calls st ++ [SetTimeout 1000%N]).
Proof.
  intros Hflags Hk st1. split; [done|].
  by rewrite (playback_round env k Hflags st1).
Qed.

Lemma text_change_during_playback_witness :
  run [RepeatResolved 0; TimerFired 0]
    (step (Change (js "x"))
       (State (js "a") [js "a"; js "b"] 0 true false false
          [Loop (Closure [js "a"; js "b"] false false) AwaitRepeat]
          [RepeatMessage (Some (js "a"))]))
  = State (js "x") (splitIntoChunks (js "x")) 1 true false false
      [Loop (Closure [js "a"; js "b"] false false) AwaitRepeat]
      [RepeatMessage (Some (js "a")); SetTimeout 1000%N;
       RepeatMessage (Some (js "b"))].
Proof.
  apply (text_change_during_playback
           (Closure [js "a"; js "b"] false false) 0 (js "x")
           (State (js "a") [js "a"; js "b"] 0 true false false
              [Loop (Closure [js "a"; js "b"] false false) AwaitRepeat]
              [RepeatMessage (Some (js "a"))]) eq_refl eq_refl).
Defined.

(** X15.  [startSpeaking] looks at the speaking flag only.  During the
    pause of a running loop the flag is clear, so a playback started then
    runs beside the first loop on the same index: when the timer of the
    first loop fires it hands its first chunk to [repeatMessage] while the
    call of the new loop is still in flight. *)
Theorem speak_during_pause_overlaps (env : closure) (k : nat) (st : state) :
  c_isInterrupted env && negb (c_resumeRequested env) = false ->
  loops st !! k = Some (Loop env AwaitDelay) ->
  c_chunks env <> [] -> chunks st <> [] ->
  isSpeaking st = false -> isInterrupted st = false ->
  run [TimerFired k] (startSpeaking st)
  = State (userContent st) (chunks st) 0 true false false
      (<[k := Loop env AwaitRepeat]> (loops st)
       ++ [Loop (capture st) AwaitRepeat])
      (calls st ++ [RepeatMessage (chunks st !! 0);
                    RepeatMessage (c_chunks env !! 0)]).
Proof.
  intros Hflags Hk Henv Hne Hs Hi.
  pose proof (lookup_lt_Some _ _ _ Hk) as Hlen.
  unfold startSpeaking. rewrite Hs.
  destruct (chunks st) as [|c cs] eqn:Hc; [done|]. cbn [length Nat.eqb orb].
  rewrite speakRemainingChunks_eq. unfold loop_iter. setters.
  cbn [capture c_chunks c_isInterrupted c_resumeRequested].
  rewrite Hi, Hc. cbn [andb length Nat.ltb Nat.leb fst snd]. setters.
  cbn [run step]. rewrite (timer_fired_eq k _ env)
    by (setters; by rewrite lookup_app_l).
  unfold loop_iter. setters. rewrite Hflags.
  destruct (c_chunks env) as [|c' cs'] eqn:Hc'; [done|].
  cbn [length Nat.ltb Nat.leb fst snd]. setters.
  rewrite insert_app_l by done. rewrite ?Hi, ?Hc. by rewrite <- app_assoc.
Qed.

Lemma speak_during_pause_overlaps_witness :
  run [TimerFired 0]
    (startSpeaking
       (State (js "a b") [js "a"; js "b"] 1 false false false
          [Loop (Closure [js "a"; js "b"] false false) AwaitDelay]
          [RepeatMessage (Some (js "a")); SetTimeout 1000%N]))
  = State (js "a b") [js "a"; js "b"] 0 true false false
      [Loop (Closure [js "a"; js "b"] false false) AwaitRepeat;
       Loop (Closure [js "a"; js "b"] false false) AwaitRepeat]
      [RepeatMessage (Some (js "a")); SetTimeout 1000%N;
       RepeatMessage (Some (js "a")); RepeatMessage (Some (js "a"))].
Proof.
  apply (speak_during_pause_overlaps
           (Closure [js "a"; js "b"] false false) 0
           (State (js "a b") [js "a"; js "b"] 1 false false false
              [Loop (Closure [js "a"; js "b"] false false) AwaitDelay]
              [RepeatMessage (Some (js "a")); SetTimeout 1000%N]));
    [reflexivity | reflexivity | discriminate | discriminate
    | reflexivity | reflexivity].
Defined.

End PlaybackExtras.

(** * Further properties of the session start *)

Module SessionExtras.
Import Chunker Session.

(** X16.  When every collaborator answers and the token is not empty, the
    session start makes its calls in this order: fetch, read the body,
    [initAvatar] with the token, subscribe to start-talking and to
    stop-talking, [startAvatar] with the default configuration and, for a
    voice chat only, [startVoiceChat]; nothing is logged. *)
Theorem startSessionV2_success
    (isVoiceChat : bool) (w : world) (token : jsstring) :
  fetch_result w = Fulfilled tt ->
  text_result w = Fulfilled token -> token <> [] ->
  initAvatar_result w = Fulfilled tt ->
  startAvatar_result w = Fulfilled tt ->
  (isVoiceChat = true -> startVoiceChat_result w = Fulfilled tt) ->
  session_calls isVoiceChat w = full_start isVoiceChat token.
Proof.
  destruct w as [f t i a v]. cbn [fetch_result text_result initAvatar_result
                                   startAvatar_result startVoiceChat_result].
  intros -> -> Hne -> -> Hv. destruct token as [|c token]; [done|].
  destruct isVoiceChat; [rewrite Hv by done|]; vm_compute; reflexivity.
Qed.

Lemma startSessionV2_success_witness :
  session_calls true
    (World (Fulfilled tt) (Fulfilled (js "tok")) (Fulfilled tt)
       (Fulfilled tt) (Fulfilled tt))
  = full_start true (js "tok").
Proof.
  apply (startSessionV2_success true
           (World (Fulfilled tt) (Fulfilled (js "tok")) (Fulfilled tt)
              (Fulfilled tt) (Fulfilled tt)) (js "tok"));
    try reflexivity; discriminate.
Defined.

(** X17.  A failure after the fetch stops the session start where it
    happens: the calls made are those up to the failing one, followed by one
    [console.error] with the reason.  When reading the body rejects there is
    no [initAvatar]; when [initAvatar] throws nothing is subscribed and
    nothing started; when [startAvatar] rejects the voice chat is not
    started. *)
Theorem startSessionV2_late_failure (isVoiceChat : bool) (w : world) :
  fetch_result w = Fulfilled tt ->
  let cs := session_calls isVoiceChat w in
  (forall r,
     text_result w = Rejected r ->
     cs = [Fetch token_url (js "POST"); ResponseText;
           ConsoleError error_prefix r]) /\
  (forall token r,
     text_result w = Fulfilled token -> token <> [] ->
     initAvatar_result w = Rejected r ->
     cs = take 3 (full_start isVoiceChat token)
          ++ [ConsoleError error_prefix r]) /\
  (forall token r,
     text_result w = Fulfilled token -> token <> [] ->
     initAvatar_result w = Fulfilled tt ->
     startAvatar_result w = Rejected r ->
     cs = take 6 (full_start isVoiceChat token)
          ++ [ConsoleError error_prefix r]) /\
  (forall token r,
     text_result w = Fulfilled token -> token <> [] ->
     initAvatar_result w = Fulfilled tt ->
     startAvatar_result w = Fulfilled tt ->
     isVoiceChat = true ->
     startVoiceChat_result w = Rejected r ->
     cs = full_start true token ++ [ConsoleError error_prefix r]).
Proof.
  destruct w as [f t i a v]. cbn [fetch_result text_result initAvatar_result
                                   startAvatar_result startVoiceChat_result].
  intros ->. cbv zeta. repeat split.
  - intros r ->. vm_compute. reflexivity.
  - intros [|c token] r -> Hne ->; [done|].
    destruct isVoiceChat; vm_compute; reflexivity.
  - intros [|c token] r -> Hne -> ->; [done|].
    destruct isVoiceChat; vm_compute; reflexivity.
  - intros [|c token] r -> Hne -> -> -> ->; [done|].
    vm_compute. reflexivity.
Qed.

Lemma startSessionV2_late_failure_witness :
  session_calls true
    (World (Fulfilled tt) (Fulfilled (js "tok")) (Fulfilled tt)
       (Rejected (js "no session")) (Fulfilled tt))
  = take 6 (full_start true (js "tok"))
    ++ [ConsoleError error_prefix (js "no session")].
Proof.
  apply (startSessionV2_late_failure true
           (World (Fulfilled tt) (Fulfilled (js "tok")) (Fulfilled tt)
              (Rejected (js "no session")) (Fulfilled tt)) eq_refl);
    try reflexivity; discriminate.
Defined.

(** X18.  [console.error] is called at most once in a session start, and
    then it is the last call; when it is not called the start went through
    to [startAvatar], or to [startVoiceChat] for a voice chat. *)
Theorem startSessionV2_error_log (isVoiceChat : bool) (w : world) :
  let cs := session_calls isVoiceChat w in
  (forall i c,
     cs !! i = Some c -> is_error_log c = true -> S i = length cs) /\
  (existsb is_error_log cs = false ->
   last cs = Some (if isVoiceChat then StartVoiceChat
                   else StartAvatar DEFAULT_CONFIG)).
Proof.
  cbv zeta. split.
  - intros i c.
    destruct w as [[[]|r] [[|u t]|r'] [[]|r1] [[]|r2] [[]|r3]];
      destruct isVoiceChat; vm_compute; intros Hi Hc;
      do 8 (destruct i as [|i]; [by simplify_eq/=|]);
      by simplify_eq/=.
  - destruct w as [[[]|r] [[|u t]|r'] [[]|r1] [[]|r2] [[]|r3]];
      destruct isVoiceChat; vm_compute; intros H;
      try discriminate H; reflexivity.
Qed.

Lemma startSessionV2_error_log_witness :
  last (session_calls false
          (World (Fulfilled tt) (Fulfilled (js "tok")) (Fulfilled tt)
             (Fulfilled tt) (Rejected [])))
  = Some (StartAvatar DEFAULT_CONFIG).
Proof.
  apply (startSessionV2_error_log false
           (World (Fulfilled tt) (Fulfilled (js "tok")) (Fulfilled tt)
              (Fulfilled tt) (Rejected []))).
  vm_compute. reflexivity.
Defined.

(** X19.  [startVoiceChat] is called only for a voice chat, and only after
    [initAvatar] returned and [startAvatar] resolved; a text chat never
    calls it, whatever the collaborators answer. *)
Theorem startVoiceChat_only_on_request (isVoiceChat : bool) (w : world) :
  let cs := session_calls isVoiceChat w in
  (existsb is_voice cs = true ->
   isVoiceChat = true /\ initAvatar_result w = Fulfilled tt /\
   startAvatar_result w = Fulfilled tt) /\
  (isVoiceChat = false -> existsb is_voice cs = false).
Proof.
  cbv zeta. split.
  - destruct w as [[[]|r] [[|u t]|r'] [[]|r1] [[]|r2] [[]|r3]];
      destruct isVoiceChat; vm_compute; intros H;
      try discriminate H; done.
  - intros ->.
    destruct w as [[[]|r] [[|u t]|r'] [[]|r1] [[]|r2] [[]|r3]];
      vm_compute; reflexivity.
Qed.

Lemma startVoiceChat_only_on_request_witness :
  existsb is_voice
    (session_calls false
       (World (Fulfilled tt) (Fulfilled (js "tok")) (Fulfilled tt)
          (Fulfilled tt) (Fulfilled tt))) = false.
Proof.
  apply (startVoiceChat_only_on_request false
           (World (Fulfilled tt) (Fulfilled (js "tok")) (Fulfilled tt)
              (Fulfilled tt) (Fulfilled tt))).
  reflexivity.
Defined.

End SessionExtras.
